(** * mocap_processing.utils.conversions

    A shallow embedding of [mocap_processing/utils/conversions.py] and the
    properties of its conversions between axis-angle vectors, Euler angles,
    quaternions, rotation matrices and homogeneous transforms.

    Numbers are real numbers ([R]); numpy's element-wise functions are read
    as their real counterparts.  Two layers are used:

    - [Store]: arrays are handles into a store of buffers, as numpy has
      them (a view shares the buffer of its base).  The batching helper,
      [A2A] and [Q2Q], which copy and update arrays in place, live here.
    - [Pure]: arrays are values (a shape and the row-major elements).  The
      functions that only read their arguments ([R2E], [Q2E], [T2Rp],
      [Rp2T]) live here. *)

From Stdlib Require Import String.
From Stdlib Require Import Reals Lra Lia List Arith Bool.
Import ListNotations.

Set Implicit Arguments.

(** ** Exceptions and results *)

Inductive exn : Type :=
| Exception (msg : string)
| ValueError
| IndexError
| AxisError
| AssertionError.

Inductive result (A : Type) : Type :=
| Ok (a : A)
| Raise (e : exn).

Arguments Ok {A} a.
Arguments Raise {A} e.

Definition is_ok {A : Type} (r : result A) : bool :=
  match r with Ok _ => true | Raise _ => false end.

(** ** Lists as flat array storage *)

(** [prod sh] is the number of elements of an array of shape [sh]
    ([np.prod]). *)
Definition prod (sh : list nat) : nat := fold_right Nat.mul 1%nat sh.

(** [chunks k n l]: the [n] consecutive blocks of length [k] of [l]. *)
Fixpoint chunks {A : Type} (k n : nat) (l : list A) : list (list A) :=
  match n with
  | O => []
  | S n' => firstn k l :: chunks k n' (skipn k l)
  end.

(** [upd i v l]: [l] with position [i] set to [v]. *)
Fixpoint upd {A : Type} (i : nat) (v : A) (l : list A) : list A :=
  match l, i with
  | [], _ => []
  | _ :: t, O => v :: t
  | x :: t, S i' => x :: upd i' v t
  end.

(** Membership of a name in the operation list ([name in op]). *)
Definition contains (name : string) (op : list string) : bool :=
  existsb (String.eqb name) op.

Module Store.

(** ** The store: buffers and the warnings emitted so far *)

Record store : Type := mk_store {
  heap : list (list R);
  warned : list string
}.

(** An array is a view of a buffer: [idx] lists, in row-major order of the
    view, the positions of its elements in buffer [base]. *)
Record ndarray : Type := mk_ndarray {
  base : nat;
  idx : list nat;
  shape : list nat
}.

Definition ndim (a : ndarray) : nat := length (shape a).

Definition M (A : Type) : Type := store -> result A * store.

Definition ret {A : Type} (a : A) : M A := fun s => (Ok a, s).

Definition bind {A B : Type} (m : M A) (f : A -> M B) : M B :=
  fun s =>
    match m s with
    | (Ok a, s') => f a s'
    | (Raise e, s') => (Raise e, s')
    end.

Definition raise {A : Type} (e : exn) : M A := fun s => (Raise e, s).

Notation "x <- c1 ;; c2" := (bind c1 (fun x => c2))
  (at level 61, c1 at next level, right associativity).
Notation "c1 ;; c2" := (bind c1 (fun _ => c2))
  (at level 61, right associativity).

(** [warnings.warn(msg)] *)
Definition warn (msg : string) : M unit :=
  fun s => (Ok tt, mk_store (heap s) (warned s ++ [msg])).

Definition buffer (s : store) (b : nat) : list R := nth b (heap s) [].

(** The elements of a view, in row-major order. *)
Definition elems (s : store) (a : ndarray) : list R :=
  map (fun i => nth i (buffer s (base a)) 0%R) (idx a).

Definition load (a : ndarray) : M (list R) := fun s => (Ok (elems s a), s).

(** A fresh buffer holding [d]; returns its index. *)
Definition alloc (d : list R) : M nat :=
  fun s => (Ok (length (heap s)), mk_store (heap s ++ [d]) (warned s)).

(** [write_buf buf ix vals]: [buf] with position [ix_k] set to [vals_k]. *)
Definition write_buf (buf : list R) (ix : list nat) (vals : list R) : list R :=
  fold_left (fun b iv => upd (fst iv) (snd iv) b) (combine ix vals) buf.

(** Element-wise assignment through a view: [a[...] = vals]. *)
Definition assign (a : ndarray) (vals : list R) : M unit :=
  fun s =>
    (Ok tt,
     mk_store (upd (base a) (write_buf (buffer s (base a)) (idx a) vals) (heap s))
              (warned s)).

(** A new C-contiguous array of shape [sh] holding [d]. *)
Definition fresh (sh : list nat) (d : list R) : M ndarray :=
  b <- alloc d ;;
  ret (mk_ndarray b (seq 0 (length d)) sh).

(** [a.copy()] *)
Definition copy (a : ndarray) : M ndarray :=
  d <- load a ;;
  fresh (shape a) d.

(** [np.array([a])] *)
Definition np_array1 (a : ndarray) : M ndarray :=
  d <- load a ;;
  fresh (1%nat :: shape a) d.

(** [np.zeros(sh)] *)
Definition zeros (sh : list nat) : M ndarray :=
  fresh sh (repeat 0%R (prod sh)).

(** [np.linalg.norm(a)] of a 1-D array: the square root of the sum of the
    squares. *)
Definition sum_sq (d : list R) : R :=
  fold_right Rplus 0%R (map (fun x => (x * x)%R) d).

Definition linalg_norm (a : ndarray) : M R :=
  d <- load a ;;
  ret (sqrt (sum_sq d)).

(** [a /= x] and [a *= x] *)
Definition idiv (a : ndarray) (x : R) : M unit :=
  d <- load a ;;
  assign a (map (fun v => (v / x)%R) d).

Definition imul (a : ndarray) (x : R) : M unit :=
  d <- load a ;;
  assign a (map (fun v => (v * x)%R) d).

(** [a[i]] for a 1-D array [a] and an index [i >= 0]. *)
Definition getitem (a : ndarray) (i : nat) : M R :=
  d <- load a ;;
  if (i <? length d)%nat then ret (nth i d 0%R) else raise IndexError.

(** [a[[i0, i1, ...]]] for a 1-D array [a]: a new array. *)
Definition take (a : ndarray) (ix : list nat) : M ndarray :=
  d <- load a ;;
  if forallb (fun i => (i <? length d)%nat) ix
  then fresh [length ix] (map (fun i => nth i d 0%R) ix)
  else raise IndexError.

(** [a[0]] for an array of at least one dimension: a view. *)
Definition first_item (a : ndarray) : M ndarray :=
  match shape a with
  | (S _) :: sh => ret (mk_ndarray (base a) (firstn (prod sh) (idx a)) sh)
  | _ => raise IndexError
  end.

(** ** Broadcasting of an assigned value *)

Fixpoint all_some {A : Type} (l : list (option A)) : option (list A) :=
  match l with
  | [] => Some []
  | None :: _ => None
  | Some x :: t =>
      match all_some t with
      | Some t' => Some (x :: t')
      | None => None
      end
  end.

(** Shapes of equal length: a dimension of the source is either the
    target's or 1 (then it is repeated). *)
Fixpoint broadcast_eq (src tgt : list nat) (d : list R) : option (list R) :=
  match src, tgt with
  | [], [] => Some d
  | n :: src', t :: tgt' =>
      if (n =? t)%nat then
        option_map (@concat R)
          (all_some (map (broadcast_eq src' tgt') (chunks (prod src') n d)))
      else if (n =? 1)%nat then
        option_map (fun row => concat (repeat row t)) (broadcast_eq src' tgt' d)
      else None
  | _, _ => None
  end.

Fixpoint strip_ones (k : nat) (sh : list nat) : option (list nat) :=
  match k with
  | O => Some sh
  | S k' =>
      match sh with
      | 1%nat :: sh' => strip_ones k' sh'
      | _ => None
      end
  end.

(** The data of a value of shape [src] assigned to a slot of shape [tgt]. *)
Definition broadcast (src tgt : list nat) (d : list R) : option (list R) :=
  if (length src <=? length tgt)%nat then
    broadcast_eq (repeat 1%nat (length tgt - length src) ++ src) tgt d
  else
    match strip_ones (length src - length tgt) src with
    | Some src' => broadcast_eq src' tgt d
    | None => None
    end.

(** ** [np.apply_along_axis(fn, 1, arr)] *)

(** The 1-D views of [arr] along axis 1, in iteration order (the indices
    of the other axes in row-major order). *)
Definition lanes (arr : ndarray) : list ndarray :=
  match shape arr with
  | n :: m :: rest =>
      let r := prod rest in
      flat_map (fun i =>
        map (fun k =>
               mk_ndarray (base arr)
                 (map (fun j => nth (i * m * r + j * r + k) (idx arr) 0%nat)
                      (seq 0 m))
                 [m])
            (seq 0 r))
        (seq 0 n)
  | _ => []
  end.

(** The slot [buff[ind]] of the result buffer for the [i]-th lane, where a
    result has [k] elements and shape [sh]. *)
Definition slot (buff : ndarray) (sh : list nat) (i : nat) : ndarray :=
  mk_ndarray (base buff) (seq (i * prod sh) (prod sh)) sh.

(** [buff[ind] = asanyarray(fn(lane))] for the lanes from position [i]. *)
Fixpoint fill (fn : ndarray -> M ndarray) (buff : ndarray) (sh : list nat)
    (i : nat) (ls : list ndarray) : M unit :=
  match ls with
  | [] => ret tt
  | v :: ls' =>
      res <- fn v ;;
      d <- load res ;;
      match broadcast (shape res) sh d with
      | Some d' => assign (slot buff sh i) d' ;; fill fn buff sh (S i) ls'
      | None => raise ValueError
      end
  end.

Definition apply_along_axis (fn : ndarray -> M ndarray) (arr : ndarray)
  : M ndarray :=
  match shape arr with
  | n :: m :: rest =>
      match lanes arr with
      | [] => raise ValueError
      | v0 :: vs =>
          res <- fn v0 ;;
          d <- load res ;;
          let sh := shape res in
          let k := prod sh in
          let r := prod rest in
          buff <- zeros ((n :: rest) ++ sh) ;;
          assign (slot buff sh 0) d ;;
          fill fn buff sh 1 vs ;;
          ret (mk_ndarray (base buff)
                 (flat_map (fun i =>
                    flat_map (fun e =>
                      map (fun j => ((i * r + j) * k + e)%nat) (seq 0 r))
                      (seq 0 k))
                    (seq 0 n))
                 (n :: sh ++ rest))
      end
  | _ => raise AxisError
  end.

(** ** The batching helper *)

Definition _apply_fn_agnostic_to_vec_mat (input : ndarray)
    (fn : ndarray -> M ndarray) : M ndarray :=
  output <- (if (ndim input =? 1)%nat then np_array1 input else ret input) ;;
  output <- apply_along_axis fn output ;;
  if (ndim input =? 1)%nat then first_item output else ret output.

(** A function of one vector whose result has one element or all of them,
    [lambda v: np.array([v[0]]) if v[0] < 0 else v]: an argument for the
    helper. *)
Definition first_if_negative (v : ndarray) : M ndarray :=
  w <- getitem v 0 ;;
  if Rlt_dec w 0 then fresh [1%nat] [w] else ret v.

(** ** A2A *)

(** Python's [x % 2] on floats. *)
Definition fmod2 (x : R) : R := (x - 2 * IZR (Int_part (x / 2)))%R.

Section WithConstants.

(** [constants.EPSILON] *)
Variable EPSILON : R.

(** The nested function [a2a] of [A2A]; it stands after the [return] of
    [A2A] and is never reached. *)
Definition a2a (a : ndarray) : M ndarray :=
  d <- load a ;;
  let angle := sqrt (sum_sq d) in
  if Rle_dec angle EPSILON then ret a
  else
    angle' <- (if Rgt_dec angle (2 * PI)
               then warn "!!!Angle is larger than 2PI!!!" ;; ret (fmod2 angle * PI)%R
               else ret angle) ;;
    if Rgt_dec angle' PI
    then fresh (shape a) (map (fun x => (- x / angle' * (2 * PI - angle'))%R) d)
    else ret a.

(** The value [a2a] computes, as a function of the elements of [a]: the
    shape and the elements of the array returned. *)
Definition a2a_value (d : list R) : result (list nat * list R) :=
  let angle := sqrt (sum_sq d) in
  if Rle_dec angle EPSILON then Ok ([List.length d], d)
  else
    let angle' := if Rgt_dec angle (2 * PI) then (fmod2 angle * PI)%R
                  else angle in
    if Rgt_dec angle' PI
    then Ok ([List.length d],
             map (fun x => (- x / angle' * (2 * PI - angle'))%R) d)
    else Ok ([List.length d], d).

(** [A2A] returns its argument in its first statement. *)
Definition A2A (A : ndarray) : M ndarray := ret A.

(** ** Q2Q *)

Definition q2q (op : list string) (wxyz_in : bool) (q : ndarray) : M ndarray :=
  result <- copy q ;;
  (if contains "normalize" op then
     norm <- linalg_norm result ;;
     if Rlt_dec norm EPSILON
     then raise (Exception "Invalid input with zero length")
     else idiv result norm
   else ret tt) ;;
  (if contains "halfspace" op then
     let w_idx := if wxyz_in then 0%nat else 3%nat in
     w <- getitem result w_idx ;;
     if Rlt_dec w 0 then imul result (-1) else ret tt
   else ret tt) ;;
  (if contains "change_order" op then
     if wxyz_in then take result [1; 2; 3; 0]%nat
     else take result [3; 0; 1; 2]%nat
   else ret result).

Definition Q2Q (Q : ndarray) (op : list string) (wxyz_in : bool) : M ndarray :=
  _apply_fn_agnostic_to_vec_mat Q (q2q op wxyz_in).

(** The value [q2q] computes, as a function of the elements of [q]: the
    shape and the elements of the array returned, or the exception. *)
Definition q2q_value (op : list string) (wxyz_in : bool) (d : list R)
  : result (list nat * list R) :=
  match (if contains "normalize" op then
           if Rlt_dec (sqrt (sum_sq d)) EPSILON
           then Raise (Exception "Invalid input with zero length")
           else Ok (map (fun v => (v / sqrt (sum_sq d))%R) d)
         else Ok d) with
  | Raise e => Raise e
  | Ok d1 =>
      match (if contains "halfspace" op then
               let w_idx := if wxyz_in then 0%nat else 3%nat in
               if (w_idx <? List.length d1)%nat then
                 if Rlt_dec (nth w_idx d1 0%R) 0
                 then Ok (map (fun v => (v * -1)%R) d1)
                 else Ok d1
               else Raise IndexError
             else Ok d1) with
      | Raise e => Raise e
      | Ok d2 =>
          if contains "change_order" op then
            let ix := if wxyz_in then [1; 2; 3; 0]%nat else [3; 0; 1; 2]%nat in
            if forallb (fun i => (i <? List.length d2)%nat) ix
            then Ok ([4%nat], map (fun i => nth i d2 0%R) ix)
            else Raise IndexError
          else Ok ([List.length d2], d2)
      end
  end.

End WithConstants.

(** ** Specification vocabulary *)

(** [frame s s']: every buffer of [s] is a buffer of [s'], unchanged. *)
Definition frame (s s' : store) : Prop :=
  (List.length (heap s) <= List.length (heap s'))%nat /\
  forall b, (b < List.length (heap s))%nat -> buffer s' b = buffer s b.

(** The store [s] with one more buffer. *)
Definition push (s : store) (d : list R) : store :=
  mk_store (heap s ++ [d]) (warned s).

(** The contiguous array that covers buffer [b] of [n] elements. *)
Definition whole (b n : nat) (sh : list nat) : ndarray :=
  mk_ndarray b (seq 0 n) sh.

(** A store of one buffer, and the vector that covers buffer 0. *)
Definition store_of (d : list R) : store := mk_store [d] [].

Definition vector0 (n : nat) : ndarray := whole 0 n [n].

(** A 1-D view whose shape agrees with its element list. *)
Definition is_vector (v : ndarray) : Prop := shape v = [List.length (idx v)].

(** [fn] computes the function [g] of the elements of a vector: it returns
    an array with the shape and elements [g] gives (or raises what [g]
    raises) and changes no buffer that exists; it may emit warnings. *)
Definition implements (fn : ndarray -> M ndarray)
    (g : list R -> result (list nat * list R)) : Prop :=
  forall (s : store) (v : ndarray),
    is_vector v ->
    frame s (snd (fn v s)) /\
    match g (elems s v) with
    | Ok (sh, d) =>
        List.length d = prod sh /\
        exists a, fst (fn v s) = Ok a /\ shape a = sh /\
                  elems (snd (fn v s)) a = d
    | Raise e => fst (fn v s) = Raise e
    end.

End Store.

Module Pure.

Local Open Scope R_scope.

(** ** Arrays as values *)

Record ndarray (A : Type) : Type := mk_ndarray {
  shape : list nat;
  data : list A
}.

Arguments mk_ndarray {A} shape data.

Definition ndim {A : Type} (a : ndarray A) : nat := List.length (shape a).

(** [a.size] *)
Definition size {A : Type} (a : ndarray A) : nat := prod (shape a).

(** An element of a computed array: [Some x] is the real number [x];
    [None] is an IEEE special value, the outcome of an operation that has
    no real value (a division by zero, an arcsine outside [[-1, 1]]) or of
    an operation on such an outcome. *)
Definition num : Type := option R.

Definition lift1 (f : R -> R) (a : num) : num := option_map f a.

Definition lift2 (f : R -> R -> R) (a b : num) : num :=
  match a, b with
  | Some x, Some y => Some (f x y)
  | _, _ => None
  end.

(** ** numpy's element-wise functions on one element *)

(** [np.arctan2(y, x)]: the angle of the point [(x, y)] in [(-pi, pi]]. *)
Definition arctan2 (y x : R) : R :=
  if Rlt_dec 0 x then atan (y / x)
  else if Rlt_dec x 0 then
    if Rle_dec 0 y then atan (y / x) + PI else atan (y / x) - PI
  else
    if Rlt_dec 0 y then PI / 2
    else if Rlt_dec y 0 then - PI / 2
    else 0.

(** [np.arcsin(x)] *)
Definition arcsin (x : R) : num :=
  if Rle_dec (-1) x then if Rle_dec x 1 then Some (asin x) else None else None.

(** [np.clip(x, lo, hi)], that is [minimum(maximum(x, lo), hi)]. *)
Definition clip (x lo hi : R) : R := Rmin (Rmax x lo) hi.

(** [x / y] *)
Definition divide (a b : num) : num :=
  match a, b with
  | Some x, Some y => if Req_dec_T y 0 then None else Some (x / y)
  | _, _ => None
  end.

(** ** Vectorised operations *)

Fixpoint map2 {A B C : Type} (f : A -> B -> C) (l : list A) (l' : list B)
  : list C :=
  match l, l' with
  | x :: t, y :: t' => f x y :: map2 f t t'
  | _, _ => []
  end.

(** [xs[mask]] *)
Fixpoint select {A : Type} (mask : list bool) (xs : list A) : list A :=
  match mask, xs with
  | true :: mask', x :: xs' => x :: select mask' xs'
  | false :: mask', _ :: xs' => select mask' xs'
  | _, _ => []
  end.

(** [e[mask] = vals], where [vals] has one value for each selected
    position. *)
Fixpoint masked_set {A : Type} (mask : list bool) (vals : list A) (e : list A)
  : list A :=
  match mask, e with
  | true :: mask', x :: e' =>
      match vals with
      | v :: vals' => v :: masked_set mask' vals' e'
      | [] => x :: e'
      end
  | false :: mask', x :: e' => x :: masked_set mask' vals e'
  | _, _ => e
  end.

(** [e[mask] = c] for a scalar [c] *)
Definition masked_fill {A : Type} (mask : list bool) (c : A) (e : list A)
  : list A :=
  map2 (fun (b : bool) x => if b then c else x) mask e.

(** [np.stack([e1, e2, e3], axis=-1)], flattened in row-major order. *)
Fixpoint stack3 {A : Type} (e1 e2 e3 : list A) : list A :=
  match e1, e2, e3 with
  | a :: t1, b :: t2, c :: t3 => a :: b :: c :: stack3 t1 t2 t3
  | _, _, _ => []
  end.

(** ** R2E *)

Definition eqb_R (x y : R) : bool := if Req_dec_T x y then true else false.

Definition R2E (Rm : ndarray R) : result (ndarray num) :=
  match rev (shape Rm) with
  | [] => Raise IndexError
  | [d1] => if (d1 =? 3)%nat then Raise IndexError else Raise AssertionError
  | d1 :: d2 :: lead =>
      if ((d1 =? 3) && (d2 =? 3))%nat then
        let orig_shape := rev lead in
        let n_samples := prod orig_shape in
        let rs := chunks 9 n_samples (data Rm) in
        let at_ (i j : nat) := map (fun m => nth (3 * i + j) m 0) rs in
        let e1 := repeat (Some 0) n_samples in
        let e2 := repeat (Some 0) n_samples in
        let e3 := repeat (Some 0) n_samples in
        let is_one := map (fun x => eqb_R x 1) (at_ 0 2)%nat in
        let is_minus_one := map (fun x => eqb_R x (-1)) (at_ 0 2)%nat in
        let is_special := map2 orb is_one is_minus_one in
        let e1 := masked_set is_special
                    (map2 (fun y x => Some (arctan2 y x))
                          (select is_special (at_ 0 1)%nat)
                          (select is_special (at_ 0 2)%nat)) e1 in
        let e2 := masked_fill is_minus_one (Some (PI / 2)) e2 in
        let e2 := masked_fill is_one (Some (- PI / 2)) e2 in
        let is_normal := map negb (map2 orb is_one is_minus_one) in
        let in_ := map (fun x => clip x (-1) 1) (select is_normal (at_ 0 2)%nat) in
        let e2 := masked_set is_normal
                    (map (fun x => lift1 Ropp (arcsin x)) in_) e2 in
        let e2_cos := map (lift1 cos) (select is_normal e2) in
        let over_cos (i j : nat) :=
          map2 divide (map Some (select is_normal (at_ i j))) e2_cos in
        let e1 := masked_set is_normal
                    (map2 (lift2 arctan2) (over_cos 1 2) (over_cos 2 2))%nat e1 in
        let e3 := masked_set is_normal
                    (map2 (lift2 arctan2) (over_cos 0 1) (over_cos 0 0))%nat e3 in
        Ok (mk_ndarray (orig_shape ++ [3%nat]) (stack3 e1 e2 e3))
      else Raise AssertionError
  end.

(** ** Q2E *)

Definition Q2E (Q : ndarray R) (epsilon : R) : result (ndarray num) :=
  match rev (shape Q) with
  | [] => Raise IndexError
  | d :: lead =>
      if (d =? 4)%nat then
        let original_shape := rev lead ++ [3%nat] in
        let Q := chunks 4 (prod (rev lead)) (data Q) in
        let q0 := map (fun q => nth 0 q 0) Q in
        let q1 := map (fun q => nth 1 q 0) Q in
        let q2 := map (fun q => nth 2 q 0) Q in
        let q3 := map (fun q => nth 3 q 0) Q in
        let mul := map2 Rmult in
        let add := map2 Rplus in
        let sub := map2 Rminus in
        let twice := map (fun v => 2 * v) in
        let one_minus := map (fun v => 1 - v) in
        let x := map2 arctan2 (twice (sub (mul q0 q1) (mul q2 q3)))
                              (one_minus (twice (add (mul q1 q1) (mul q2 q2)))) in
        let y := map (fun v => arcsin (clip v (-1 + epsilon) (1 - epsilon)))
                     (twice (add (mul q1 q3) (mul q0 q2))) in
        let z := map2 arctan2 (twice (sub (mul q0 q3) (mul q1 q2)))
                              (one_minus (twice (add (mul q2 q2) (mul q3 q3)))) in
        Ok (mk_ndarray original_shape (stack3 (map Some x) y (map Some z)))
      else Raise AssertionError
  end.

(** ** T2Rp and Rp2T *)

(** [T[..., :3, :3]] and [T[..., :3, 3]] on one matrix of [a] rows and [b]
    columns. *)
Definition top_left (a b : nat) (m : list R) : list R :=
  flat_map (firstn 3) (firstn 3 (chunks b a m)).

Definition last_col (a b : nat) (m : list R) : list R :=
  map (fun row => nth 3 row 0) (firstn 3 (chunks b a m)).

Definition T2Rp (T : ndarray R) : result (ndarray R * ndarray R) :=
  match rev (shape T) with
  | b :: a :: lead =>
      let ms := chunks (a * b) (prod (rev lead)) (data T) in
      let R := mk_ndarray (rev lead ++ [Nat.min 3 a; Nat.min 3 b])
                          (flat_map (top_left a b) ms) in
      if (3 <? b)%nat then
        let p := mk_ndarray (rev lead ++ [Nat.min 3 a])
                            (flat_map (last_col a b) ms) in
        Ok (R, p)
      else Raise IndexError
  | _ => Raise IndexError
  end.

(** Modelled from the spec: [constants.eye_T()], the identity transform
    (the 4x4 identity matrix), in row-major order. *)
Definition eye_T : list R :=
  [1; 0; 0; 0;
   0; 1; 0; 0;
   0; 0; 1; 0;
   0; 0; 0; 1].

(** [T[:3, :3] = r] and [T[:3, 3] = p] on one 4x4 matrix. *)
Definition set_top_left (r : list R) (m : list R) : list R :=
  map (fun k => if ((k / 4 <? 3) && (k mod 4 <? 3))%nat
                then nth (3 * (k / 4) + k mod 4) r 0
                else nth k m 0)
      (seq 0 16).

Definition set_last_col (p : list R) (m : list R) : list R :=
  map (fun k => if ((k / 4 <? 3) && (k mod 4 =? 3))%nat
                then nth (k / 4) p 0
                else nth k m 0)
      (seq 0 16).

(** The rows of a value with [List.length rows] leading items assigned to
    [n] leading items: equal counts, or one item repeated. *)
Definition broadcast_items {A : Type} (n : nat) (rows : list A)
  : option (list A) :=
  if (List.length rows =? n)%nat then Some rows
  else match rows with
       | [row] => Some (repeat row n)
       | _ => None
       end.

(** [a.reshape((-1, k))] *)
Definition reshape_items (k : nat) (a : ndarray R) : option (list (list R)) :=
  if (size a mod k =? 0)%nat then Some (chunks k (size a / k) (data a))
  else None.

Definition Rp2T (Rm p : ndarray R) : result (ndarray R) :=
  let input_shape :=
    if (2 <? ndim Rm)%nat then removelast (removelast (shape Rm))
    else removelast (shape p) in
  match reshape_items 9 Rm with
  | None => Raise ValueError
  | Some R_flat =>
      match reshape_items 3 p with
      | None => Raise ValueError
      | Some p_flat =>
          let n := prod input_shape in
          let T := repeat (repeat 0 16) n in
          let T := map (fun _ => eye_T) T in
          match broadcast_items n R_flat with
          | None => Raise ValueError
          | Some Rs =>
              let T := map2 set_top_left Rs T in
              match broadcast_items n p_flat with
              | None => Raise ValueError
              | Some ps =>
                  let T := map2 set_last_col ps T in
                  Ok (mk_ndarray (input_shape ++ [4; 4]%nat) (concat T))
              end
          end
      end
  end.

(** ** The conversions of one item, as the specification words them *)

(** The Euler angles of one matrix: the two gimbal-lock cases, then the
    normal case. *)
Definition euler_of_matrix (m : list R) : list num :=
  let r (i j : nat) := nth (3 * i + j) m 0 in
  if Req_dec_T (r 0 2)%nat 1 then
    [Some (arctan2 (r 0 1) (r 0 2))%nat; Some (- PI / 2); Some 0]
  else if Req_dec_T (r 0 2)%nat (-1) then
    [Some (arctan2 (r 0 1) (r 0 2))%nat; Some (PI / 2); Some 0]
  else
    let e2 := lift1 Ropp (arcsin (clip (r 0 2)%nat (-1) 1)) in
    let c := lift1 cos e2 in
    [lift2 arctan2 (divide (Some (r 1 2)%nat) c) (divide (Some (r 2 2)%nat) c);
     e2;
     lift2 arctan2 (divide (Some (r 0 1)%nat) c) (divide (Some (r 0 0)%nat) c)].

(** The Euler angles of one quaternion in (w, x, y, z) order. *)
Definition euler_of_quaternion (epsilon : R) (q : list R) : list num :=
  let q0 := nth 0 q 0 in
  let q1 := nth 1 q 0 in
  let q2 := nth 2 q 0 in
  let q3 := nth 3 q 0 in
  [Some (arctan2 (2 * (q0 * q1 - q2 * q3)) (1 - 2 * (q1 * q1 + q2 * q2)));
   arcsin (clip (2 * (q1 * q3 + q0 * q2)) (-1 + epsilon) (1 - epsilon));
   Some (arctan2 (2 * (q0 * q3 - q1 * q2)) (1 - 2 * (q2 * q2 + q3 * q3)))].

(** The rotation block and the position column of one 4x4 transform. *)
Definition rotation_of (m : list R) : list R :=
  map (fun k => nth k m 0) [0; 1; 2; 4; 5; 6; 8; 9; 10]%nat.

Definition position_of (m : list R) : list R :=
  map (fun k => nth k m 0) [3; 7; 11]%nat.

(** The bottom row of a homogeneous transform is (0, 0, 0, 1). *)
Definition homogeneous (m : list R) : Prop := skipn 12 m = [0; 0; 0; 1].

(** ** Angle units *)

(** [rad * 180.0 / np.pi] and [deg * np.pi / 180.0], element by element. *)
Definition rad2deg (rad : ndarray R) : ndarray R :=
  mk_ndarray (shape rad) (map (fun x => x * 180 / PI) (data rad)).

Definition deg2rad (deg : ndarray R) : ndarray R :=
  mk_ndarray (shape deg) (map (fun x => x * PI / 180) (data deg)).

(** ** Rotations about one axis *)

(** Modelled from the spec: [constants.eye_R()], the identity rotation (a
    new 3x3 identity matrix at each call), and [constants.zero_p()], the
    zero position. *)
Definition eye_R : ndarray R :=
  mk_ndarray [3; 3]%nat [1; 0; 0; 0; 1; 0; 0; 0; 1].

Definition zero_p : ndarray R := mk_ndarray [3%nat] [0; 0; 0].

(** [R[i, j] = v] on a 3x3 matrix. *)
Definition set_item (i j : nat) (v : R) (Rm : ndarray R) : ndarray R :=
  mk_ndarray (shape Rm) (upd (3 * i + j) v (data Rm)).

(** [np.cos] and [np.sin] are the cosine and the sine of the real numbers.
    The sine of a floating-point number within about 1e-8 of pi/2 or
    -pi/2 is rounded to 1 or -1; the statements that depend on a test of
    an entry against 1 or -1 keep away from these angles. *)
Definition Ax2R (theta : R) : ndarray R :=
  let Rm := eye_R in
  let c := cos theta in
  let s := sin theta in
  let Rm := set_item 1 1 c Rm in
  let Rm := set_item 1 2 (- s) Rm in
  let Rm := set_item 2 1 s Rm in
  let Rm := set_item 2 2 c Rm in
  Rm.

Definition Ay2R (theta : R) : ndarray R :=
  let Rm := eye_R in
  let c := cos theta in
  let s := sin theta in
  let Rm := set_item 0 0 c Rm in
  let Rm := set_item 0 2 s Rm in
  let Rm := set_item 2 0 (- s) Rm in
  let Rm := set_item 2 2 c Rm in
  Rm.

Definition Az2R (theta : R) : ndarray R :=
  let Rm := eye_R in
  let c := cos theta in
  let s := sin theta in
  let Rm := set_item 0 0 c Rm in
  let Rm := set_item 0 1 (- s) Rm in
  let Rm := set_item 1 0 s Rm in
  let Rm := set_item 1 1 c Rm in
  Rm.

(** ** Transforms from and to their parts *)

Definition R2T (Rm : ndarray R) : result (ndarray R) := Rp2T Rm zero_p.

(** [np.array(p)] is [p] itself as a value. *)
Definition p2T (p : ndarray R) : result (ndarray R) := Rp2T eye_R p.

Definition T2p (T : ndarray R) : result (ndarray R) :=
  match T2Rp T with
  | Ok (_, p) => Ok p
  | Raise e => Raise e
  end.

Definition T2R (T : ndarray R) : result (ndarray R) :=
  match T2Rp T with
  | Ok (Rm, _) => Ok Rm
  | Raise e => Raise e
  end.

(** ** Vocabulary for 3x3 matrices in row-major order *)

Definition entry (m : list R) (i j : nat) : R := nth (3 * i + j) m 0.

Definition matmul3 (a b : list R) : list R :=
  map (fun k =>
         entry a (k / 3) 0 * entry b 0 (k mod 3)
         + entry a (k / 3) 1 * entry b 1 (k mod 3)
         + entry a (k / 3) 2 * entry b 2 (k mod 3))
      (seq 0 9).

Definition transpose3 (a : list R) : list R :=
  map (fun k => entry a (k mod 3) (k / 3)) (seq 0 9).

Definition det3 (a : list R) : R :=
  entry a 0 0 * (entry a 1 1 * entry a 2 2 - entry a 1 2 * entry a 2 1)
  - entry a 0 1 * (entry a 1 0 * entry a 2 2 - entry a 1 2 * entry a 2 0)
  + entry a 0 2 * (entry a 1 0 * entry a 2 1 - entry a 1 1 * entry a 2 0).

(** A rotation matrix: orthonormal, of determinant 1. *)
Definition is_rotation (a : list R) : Prop :=
  List.length a = 9%nat /\
  matmul3 a (transpose3 a) = data eye_R /\
  det3 a = 1.

(** Every element of a computed array is a real number. *)
Definition all_real (a : ndarray num) : Prop :=
  Forall (fun x => x <> None) (data a).

(** One transform as [Rp2T] fills it: the identity transform with its
    rotation block set to [r], then its position column set to [p]. *)
Definition filled (r p : list R) : list R :=
  set_last_col p (set_top_left r eye_T).

End Pure.

(** * Properties *)

(** ** Lists *)

Lemma upd_length {A : Type} (i : nat) (v : A) (l : list A) :
  List.length (upd i v l) = List.length l.
Proof.
  revert i; induction l as [|x t IH]; intros [|i]; simpl; auto.
Qed.

Lemma nth_upd_same {A : Type} (i : nat) (v d : A) (l : list A) :
  (i < List.length l)%nat -> nth i (upd i v l) d = v.
Proof.
  revert i; induction l as [|x t IH]; intros [|i] H; simpl in *;
    try lia; auto.
  apply IH; lia.
Qed.

Lemma nth_upd_other {A : Type} (i j : nat) (v d : A) (l : list A) :
  i <> j -> nth j (upd i v l) d = nth j l d.
Proof.
  revert i j; induction l as [|x t IH]; intros [|i] [|j] H; simpl;
    auto; try congruence.
Qed.

Lemma upd_beyond {A : Type} (i : nat) (v : A) (l : list A) :
  (List.length l <= i)%nat -> upd i v l = l.
Proof.
  revert i; induction l as [|x t IH]; intros [|i] H; simpl in *;
    auto; try lia.
  f_equal; apply IH; lia.
Qed.

Lemma upd_app_r {A : Type} (l1 l2 : list A) (i : nat) (v : A) :
  upd (List.length l1 + i) v (l1 ++ l2) = l1 ++ upd i v l2.
Proof.
  induction l1 as [|x t IH]; simpl; auto.
  now rewrite IH.
Qed.

Lemma map_nth_seq {A : Type} (d : A) (l : list A) :
  map (fun i => nth i l d) (seq 0 (List.length l)) = l.
Proof.
  induction l as [|x t IH]; simpl; auto.
  f_equal. rewrite <- seq_shift, map_map. exact IH.
Qed.

Lemma chunks_length {A : Type} (k n : nat) (l : list A) :
  List.length (chunks k n l) = n.
Proof.
  revert l; induction n; intros; simpl; auto.
Qed.

Lemma concat_chunks {A : Type} (k n : nat) (l : list A) :
  List.length l = (n * k)%nat -> concat (chunks k n l) = l.
Proof.
  revert l; induction n as [|n IH]; intros l H; simpl in *.
  - destruct l; simpl in *; auto; discriminate.
  - rewrite IH.
    + apply firstn_skipn.
    + rewrite length_skipn; lia.
Qed.

Lemma chunks_app {A : Type} (k n : nat) (c l : list A) :
  List.length c = k -> chunks k (S n) (c ++ l) = c :: chunks k n l.
Proof.
  intros H; simpl.
  rewrite firstn_app, skipn_app, H, Nat.sub_diag; simpl.
  rewrite firstn_all2, skipn_all2 by lia. simpl.
  now rewrite app_nil_r.
Qed.

Lemma chunks_In_length {A : Type} (k n : nat) (l c : list A) :
  List.length l = (n * k)%nat -> In c (chunks k n l) -> List.length c = k.
Proof.
  revert l; induction n as [|n IH]; intros l H Hin; simpl in *.
  - contradiction.
  - destruct Hin as [<- | Hin].
    + rewrite length_firstn; lia.
    + apply IH with (l := skipn k l); auto.
      rewrite length_skipn; lia.
Qed.

Lemma chunks_map {A B : Type} (f : A -> B) (k n : nat) (l : list A) :
  chunks k n (map f l) = map (map f) (chunks k n l).
Proof.
  revert l; induction n as [|n IH]; intros l; simpl; auto.
  now rewrite firstn_map, skipn_map, IH.
Qed.

Module StoreProps.

Import Store.

(** ** Frames *)

Lemma frame_refl (s : store) : frame s s.
Proof. split; auto. Qed.

Lemma frame_trans (s1 s2 s3 : store) :
  frame s1 s2 -> frame s2 s3 -> frame s1 s3.
Proof.
  intros [L12 B12] [L23 B23]; split; [lia|].
  intros b Hb. rewrite B23 by lia. now apply B12.
Qed.

Lemma frame_elems (s s' : store) (a : ndarray) :
  frame s s' -> (base a < List.length (heap s))%nat -> elems s' a = elems s a.
Proof.
  intros [_ B] Hb. unfold elems. now rewrite B.
Qed.

Lemma frame_push (s0 s : store) (d : list R) :
  frame s0 s -> frame s0 (mk_store (heap s ++ [d]) (warned s)).
Proof.
  intros [L B]; split; simpl.
  - rewrite length_app; lia.
  - intros b Hb. unfold buffer in *; simpl.
    rewrite app_nth1 by lia. now apply B.
Qed.

Lemma frame_upd (s0 s : store) (b : nat) (buf : list R) :
  frame s0 s -> (List.length (heap s0) <= b)%nat ->
  frame s0 (mk_store (upd b buf (heap s)) (warned s)).
Proof.
  intros [L B] Hb; split; simpl.
  - rewrite upd_length; lia.
  - intros c Hc. unfold buffer in *; simpl.
    rewrite nth_upd_other by lia. now apply B.
Qed.

(** ** Running the primitives on a fresh array *)

Lemma buffer_push (s : store) (d : list R) :
  buffer (push s d) (List.length (heap s)) = d.
Proof.
  unfold buffer, push; simpl.
  rewrite app_nth2, Nat.sub_diag by lia. reflexivity.
Qed.

Lemma elems_whole (s : store) (d : list R) (sh : list nat) :
  elems (push s d) (whole (List.length (heap s)) (List.length d) sh) = d.
Proof.
  unfold elems, whole; simpl. rewrite buffer_push. apply map_nth_seq.
Qed.

Lemma write_buf_nil (buf : list R) (ix : list nat) : write_buf buf ix [] = buf.
Proof. unfold write_buf. now destruct ix. Qed.

Lemma write_buf_cons (buf : list R) (i : nat) (ix : list nat) (v : R)
    (vals : list R) :
  write_buf buf (i :: ix) (v :: vals) = write_buf (upd i v buf) ix vals.
Proof. reflexivity. Qed.

Lemma write_buf_length (buf : list R) (ix : list nat) (vals : list R) :
  List.length (write_buf buf ix vals) = List.length buf.
Proof.
  revert buf vals; induction ix as [|i ix IH]; intros buf [|v vals];
    try reflexivity.
  rewrite write_buf_cons, IH. apply upd_length.
Qed.

(** Writing a run of positions replaces the block there. *)
Lemma write_buf_block (pre old post new : list R) :
  List.length new = List.length old ->
  write_buf (pre ++ old ++ post) (seq (List.length pre) (List.length old)) new
  = pre ++ new ++ post.
Proof.
  revert pre new; induction old as [|o old IH]; intros pre [|v new] H;
    simpl in H; try discriminate; try reflexivity.
  simpl seq. rewrite write_buf_cons.
  replace (List.length pre) with (List.length pre + 0)%nat at 1 by lia.
  rewrite upd_app_r. simpl upd.
  replace (pre ++ v :: old ++ post) with ((pre ++ [v]) ++ old ++ post)
    by (rewrite <- app_assoc; reflexivity).
  replace (S (List.length pre)) with (List.length (pre ++ [v]))
    by (rewrite length_app; simpl; lia).
  rewrite IH by lia.
  rewrite <- app_assoc; reflexivity.
Qed.

Lemma write_buf_whole (old new : list R) :
  List.length new = List.length old ->
  write_buf old (seq 0 (List.length old)) new = new.
Proof.
  intros H.
  pose proof (write_buf_block [] old [] new H) as E.
  simpl in E. now rewrite !app_nil_r in E.
Qed.

Lemma assign_whole (s : store) (d vals : list R) (sh : list nat) :
  List.length vals = List.length d ->
  assign (whole (List.length (heap s)) (List.length d) sh) vals (push s d)
  = (Ok tt, push s vals).
Proof.
  intros H. unfold assign, whole; simpl base; simpl idx.
  rewrite buffer_push, write_buf_whole by exact H.
  unfold push; simpl. f_equal. f_equal.
  replace (List.length (heap s)) with (List.length (heap s) + 0)%nat by lia.
  now rewrite upd_app_r.
Qed.

Lemma copy_run (v : ndarray) (s : store) :
  copy v s = (Ok (whole (List.length (heap s)) (List.length (elems s v)) (shape v)),
              push s (elems s v)).
Proof. reflexivity. Qed.

Lemma linalg_norm_whole (s : store) (d : list R) (n : nat) (sh : list nat) :
  n = List.length d ->
  linalg_norm (whole (List.length (heap s)) n sh) (push s d)
  = (Ok (sqrt (sum_sq d)), push s d).
Proof.
  intros ->. unfold linalg_norm, bind, load, ret. now rewrite elems_whole.
Qed.

Lemma idiv_whole (s : store) (d : list R) (n : nat) (sh : list nat) (x : R) :
  n = List.length d ->
  idiv (whole (List.length (heap s)) n sh) x (push s d)
  = (Ok tt, push s (map (fun v => (v / x)%R) d)).
Proof.
  intros ->. unfold idiv, bind, load. rewrite elems_whole.
  apply assign_whole. apply length_map.
Qed.

Lemma imul_whole (s : store) (d : list R) (n : nat) (sh : list nat) (x : R) :
  n = List.length d ->
  imul (whole (List.length (heap s)) n sh) x (push s d)
  = (Ok tt, push s (map (fun v => (v * x)%R) d)).
Proof.
  intros ->. unfold imul, bind, load. rewrite elems_whole.
  apply assign_whole. apply length_map.
Qed.

Lemma getitem_whole (s : store) (d : list R) (n i : nat) (sh : list nat) :
  n = List.length d ->
  getitem (whole (List.length (heap s)) n sh) i (push s d)
  = if (i <? List.length d)%nat then (Ok (nth i d 0%R), push s d)
    else (Raise IndexError, push s d).
Proof.
  intros ->. unfold getitem, bind, load. rewrite elems_whole.
  now destruct (i <? List.length d)%nat.
Qed.

Lemma take_whole (s : store) (d : list R) (n : nat) (ix sh : list nat) :
  n = List.length d ->
  take (whole (List.length (heap s)) n sh) ix (push s d)
  = if forallb (fun i => (i <? List.length d)%nat) ix
    then (Ok (whole (List.length (heap (push s d)))
                    (List.length (map (fun i => nth i d 0%R) ix))
                    [List.length ix]),
          push (push s d) (map (fun i => nth i d 0%R) ix))
    else (Raise IndexError, push s d).
Proof.
  intros ->. unfold take, bind, load. rewrite elems_whole.
  now destruct (forallb _ ix).
Qed.

Lemma frame_push_one (s : store) (d : list R) : frame s (push s d).
Proof. apply frame_push, frame_refl. Qed.

Lemma frame_push_two (s : store) (d d' : list R) : frame s (push (push s d) d').
Proof. apply (frame_push (s0 := s) (s := push s d)), frame_push_one. Qed.


Lemma elems_whole' (s : store) (d : list R) (n : nat) (sh : list nat) :
  n = List.length d ->
  elems (push s d) (whole (List.length (heap s)) n sh) = d.
Proof. intros ->. apply elems_whole. Qed.

Lemma prod_one (n : nat) : prod [n] = n.
Proof. unfold prod; simpl; lia. Qed.

Ltac lens := rewrite ?length_map; try reflexivity.

Ltac run_step :=
  match goal with
  | |- context [linalg_norm (whole _ _ _) (push _ _)] =>
      rewrite linalg_norm_whole by lens
  | |- context [idiv (whole _ _ _) _ (push _ _)] =>
      rewrite idiv_whole by lens
  | |- context [imul (whole _ _ _) _ (push _ _)] =>
      rewrite imul_whole by lens
  | |- context [getitem (whole _ _ _) _ (push _ _)] =>
      rewrite getitem_whole by lens
  | |- context [take (whole _ _ _) _ (push _ _)] =>
      rewrite take_whole by lens
  | |- context [if contains ?n ?op then _ else _] =>
      destruct (contains n op) eqn:?
  | |- context [if Rlt_dec ?x ?y then _ else _] => destruct (Rlt_dec x y)
  | |- context [if (?i <? ?n)%nat then _ else _] => destruct (i <? n)%nat eqn:?
  | |- context [if forallb ?f ?l then _ else _] => destruct (forallb f l) eqn:?
  end; cbv beta iota; unfold ret, raise; try congruence; try contradiction.

Section Q.
Variable EPSILON : R.

Lemma q2q_implements (op : list string) (wxyz_in : bool) :
  implements (q2q EPSILON op wxyz_in) (q2q_value EPSILON op wxyz_in).
Proof.
  intros s v Hv. unfold q2q, q2q_value, bind. cbv zeta.
  rewrite copy_run.
  assert (Hlen : List.length (elems s v) = List.length (idx v))
    by apply length_map.
  red in Hv.
  set (d := elems s v) in *.
  destruct wxyz_in.
  all: repeat run_step.
  all: cbn [fst snd].
  all: (split; [auto using frame_push_one, frame_push_two|]).
  all: try reflexivity.
  all: try (split; [rewrite ?prod_one; lens|]).
  all: try (eexists; split; [reflexivity|]; split).
  all: try (apply elems_whole'; lens).
  all: try reflexivity.
  all: try (cbn [whole shape]; rewrite Hv; lens; congruence).
Qed.

(** [a2a] computes [a2a_value]; it warns on an angle above 2 pi. *)
Lemma a2a_implements : implements (a2a EPSILON) (a2a_value EPSILON).
Proof.
  intros s v Hv. red in Hv.
  assert (Hlen : List.length (elems s v) = List.length (idx v))
    by apply length_map.
  assert (Own : List.length (elems s v) = prod [List.length (elems s v)] /\
                exists a, Ok v = Ok a /\
                          shape a = [List.length (elems s v)] /\
                          elems s a = elems s v).
  { split; [now rewrite prod_one|]. exists v. now rewrite Hv, Hlen. }
  unfold a2a, a2a_value, bind, load. cbv zeta.
  set (d := elems s v) in *.
  destruct (Rle_dec (sqrt (sum_sq d)) EPSILON).
  { split; [apply frame_refl | exact Own]. }
  destruct (Rgt_dec (sqrt (sum_sq d)) (2 * PI));
    unfold warn, ret; cbv beta iota;
    match goal with
    | |- context [Rgt_dec ?x PI] => destruct (Rgt_dec x PI)
    end;
    unfold fresh, bind, alloc, ret; cbn [fst snd].
  all: split;
    [ first [ apply frame_refl
            | apply (frame_push (s0 := s)
                       (s := mk_store (heap s) (warned s ++ _)));
              split; [simpl; lia | reflexivity]
            | split; [simpl; lia | reflexivity]
            | apply frame_push_one ] |].
  all: try exact Own.
  all: split; [now rewrite length_map, prod_one|].
  all: eexists; split; [reflexivity|]; split;
    [cbn [shape]; now rewrite Hv, Hlen|].
  all: unfold elems, buffer; cbn [base idx heap];
    rewrite app_nth2, Nat.sub_diag by lia; cbn [nth];
    apply map_nth_seq.
Qed.

End Q.

Lemma bind_ok {A B : Type} (m : M A) (f : A -> M B) (s s' : store) (a : A) :
  m s = (Ok a, s') -> bind m f s = f a s'.
Proof. intros H. unfold bind. now rewrite H. Qed.

Lemma bind_raise {A B : Type} (m : M A) (f : A -> M B) (s s' : store) (e : exn) :
  m s = (Raise e, s') -> bind m f s = (Raise e, s').
Proof. intros H. unfold bind. now rewrite H. Qed.

Lemma frame_assign (s0 s : store) (a : ndarray) (vals : list R) :
  frame s0 s -> (List.length (heap s0) <= base a)%nat ->
  frame s0 (snd (assign a vals s)).
Proof. intros F H. unfold assign; simpl. now apply frame_upd. Qed.

Lemma lanes_vector (arr : ndarray) : Forall is_vector (lanes arr).
Proof.
  unfold lanes. destruct (shape arr) as [|n [|m rest]]; auto.
  apply Forall_forall. intros v Hv.
  apply in_flat_map in Hv as (i & _ & Hv).
  apply in_map_iff in Hv as (k & <- & _).
  unfold is_vector; simpl. now rewrite length_map, length_seq.
Qed.

Lemma lanes_base (arr : ndarray) :
  Forall (fun v => base v = base arr) (lanes arr).
Proof.
  unfold lanes. destruct (shape arr) as [|n [|m rest]]; auto.
  apply Forall_forall. intros v Hv.
  apply in_flat_map in Hv as (i & _ & Hv).
  now apply in_map_iff in Hv as (k & <- & _).
Qed.

Lemma np_array1_run (a : ndarray) (s : store) :
  np_array1 a s
  = (Ok (whole (List.length (heap s)) (List.length (elems s a))
               (1%nat :: shape a)),
     push s (elems s a)).
Proof. reflexivity. Qed.

Lemma first_item_store (a : ndarray) (s : store) :
  snd (first_item a s) = s.
Proof.
  unfold first_item. now destruct (shape a) as [|[|n] sh].
Qed.

Section Frames.

Variable fn : ndarray -> M ndarray.
Hypothesis fn_frame : forall s v, is_vector v -> frame s (snd (fn v s)).

Lemma fill_frame (s0 : store) (buff : ndarray) (sh : list nat)
    (ls : list ndarray) :
  (List.length (heap s0) <= base buff)%nat ->
  Forall is_vector ls ->
  forall i s, frame s0 s -> frame s0 (snd (fill fn buff sh i ls s)).
Proof.
  intros Hb Hls. induction Hls as [|v ls Hv Hls IH]; intros i s F.
  - exact F.
  - simpl. unfold bind at 1.
    pose proof (fn_frame s Hv) as F1.
    destruct (fn v s) as [[res|e] s1]; simpl in F1.
    2:{ simpl. eapply frame_trans; eauto. }
    unfold bind at 1. unfold load at 1.
    destruct (broadcast (shape res) sh (elems s1 res)) as [d'|].
    2:{ simpl. eapply frame_trans; eauto. }
    unfold bind at 1.
    pose proof (frame_assign (slot buff sh i) d'
                  (frame_trans F F1) Hb) as F2.
    destruct (assign (slot buff sh i) d' s1) as [[[]|e] s2] eqn:E;
      simpl in F2.
    + now apply IH.
    + exact F2.
Qed.

Lemma apply_along_axis_frame (arr : ndarray) (s : store) :
  frame s (snd (apply_along_axis fn arr s)).
Proof.
  unfold apply_along_axis.
  destruct (shape arr) as [|n [|m rest]]; try apply frame_refl.
  pose proof (lanes_vector arr) as Hl.
  destruct (lanes arr) as [|v0 vs]; try apply frame_refl.
  inversion Hl as [|? ? Hv0 Hvs]; subst.
  unfold bind at 1.
  pose proof (fn_frame s Hv0) as F1.
  destruct (fn v0 s) as [[res|e] s1]; simpl in F1; [|exact F1].
  unfold bind at 1. unfold load at 1.
  cbv zeta.
  unfold bind at 1.
  unfold zeros, fresh, bind at 1, alloc, ret.
  set (z := repeat 0%R _).
  set (buff := mk_ndarray (List.length (heap s1)) _ _).
  assert (Hb : (List.length (heap s) <= base buff)%nat)
    by (destruct F1; simpl; lia).
  assert (F2 : frame s (mk_store (heap s1 ++ [z]) (warned s1)))
    by (apply frame_push; exact F1).
  unfold bind at 1.
  pose proof (frame_assign (slot buff (shape res) 0) (elems s1 res) F2 Hb)
    as F3.
  destruct (assign (slot buff (shape res) 0) (elems s1 res) _)
    as [[[]|e] s3]; simpl in F3; [|exact F3].
  unfold bind at 1.
  pose proof (@fill_frame s buff (shape res) vs Hb Hvs 1%nat s3 F3) as F4.
  destruct (fill fn buff (shape res) 1 vs s3) as [[[]|e] s4];
    simpl in F4; exact F4.
Qed.

Lemma helper_frame (input : ndarray) (s : store) :
  frame s (snd (_apply_fn_agnostic_to_vec_mat input fn s)).
Proof.
  unfold _apply_fn_agnostic_to_vec_mat.
  unfold bind at 1.
  destruct (ndim input =? 1)%nat.
  - rewrite np_array1_run.
    unfold bind at 1.
    pose proof (apply_along_axis_frame
                  (whole (List.length (heap s)) (List.length (elems s input))
                         (1%nat :: shape input))
                  (push s (elems s input))) as F.
    destruct (apply_along_axis fn _ _) as [[out|e] s2]; simpl in F.
    + rewrite first_item_store.
      eapply frame_trans; [apply frame_push_one | exact F].
    + eapply frame_trans; [apply frame_push_one | exact F].
  - unfold ret at 1. unfold bind at 1.
    pose proof (apply_along_axis_frame input s) as F.
    destruct (apply_along_axis fn input s) as [[out|e] s2]; exact F.
Qed.

End Frames.

Ltac splits := repeat match goal with |- _ /\ _ => split end.

(** ** Broadcasting a value of the slot's own shape *)

Lemma all_some_map_id {A : Type} (f : A -> option A) (l : list A) :
  (forall x, In x l -> f x = Some x) -> all_some (map f l) = Some l.
Proof.
  induction l as [|x t IH]; intros H; simpl; auto.
  rewrite (H x) by (now left). rewrite IH; auto.
  intros y Hy. apply H. now right.
Qed.

Lemma broadcast_eq_same (sh : list nat) :
  forall d, List.length d = prod sh -> broadcast_eq sh sh d = Some d.
Proof.
  induction sh as [|n sh IH]; intros d H; simpl; auto.
  rewrite Nat.eqb_refl.
  rewrite all_some_map_id.
  - simpl. f_equal. apply concat_chunks. exact H.
  - intros c Hc. apply IH.
    eapply chunks_In_length; eauto.
Qed.

Lemma broadcast_same (sh : list nat) (d : list R) :
  List.length d = prod sh -> broadcast sh sh d = Some d.
Proof.
  intros H. unfold broadcast.
  rewrite Nat.leb_refl, Nat.sub_diag. simpl.
  now apply broadcast_eq_same.
Qed.

(** ** The lanes of a 2-D array are its rows *)

Lemma flat_map_single {A B : Type} (f : A -> B) (l : list A) :
  flat_map (fun x => [f x]) l = map f l.
Proof. induction l; simpl; congruence. Qed.

Lemma firstn_as_map {A : Type} (d : A) (m : nat) (l : list A) :
  (m <= List.length l)%nat ->
  firstn m l = map (fun j => nth j l d) (seq 0 m).
Proof.
  revert l; induction m as [|m IH]; intros l H; simpl; auto.
  destruct l as [|x t]; simpl in *; [lia|].
  f_equal. rewrite <- seq_shift, map_map. apply IH. lia.
Qed.

Lemma nth_skipn' {A : Type} (d : A) (m k : nat) (l : list A) :
  nth k (skipn m l) d = nth (m + k) l d.
Proof.
  revert l; induction m as [|m IH]; intros l; simpl; auto.
  destruct l; simpl; auto. now destruct k.
Qed.

Lemma chunks_as_map {A : Type} (d : A) (m n : nat) (l : list A) :
  List.length l = (n * m)%nat ->
  chunks m n l
  = map (fun i => map (fun j => nth (i * m + j) l d) (seq 0 m)) (seq 0 n).
Proof.
  revert l; induction n as [|n IH]; intros l H; simpl; auto.
  f_equal.
  - apply firstn_as_map. lia.
  - rewrite IH by (rewrite length_skipn; lia).
    rewrite <- seq_shift, map_map.
    apply map_ext. intros i. apply map_ext. intros j.
    rewrite nth_skipn'. f_equal. lia.
Qed.

Lemma lanes_2d (arr : ndarray) (n m : nat) :
  shape arr = [n; m] ->
  lanes arr
  = map (fun i =>
           mk_ndarray (base arr)
             (map (fun j => nth (i * m + j) (idx arr) 0%nat) (seq 0 m)) [m])
        (seq 0 n).
Proof.
  intros H. unfold lanes. rewrite H. simpl.
  rewrite flat_map_single. apply map_ext. intros i. f_equal.
  apply map_ext. intros j. f_equal. lia.
Qed.

Lemma lanes_rows (s : store) (arr : ndarray) (n m : nat) :
  shape arr = [n; m] -> List.length (idx arr) = (n * m)%nat ->
  map (elems s) (lanes arr) = chunks m n (elems s arr).
Proof.
  intros Hs Hl. rewrite (lanes_2d arr Hs), map_map.
  unfold elems at 2. rewrite chunks_map.
  rewrite (chunks_as_map 0%nat m n (idx arr) Hl), map_map.
  apply map_ext. intros i. unfold elems; simpl. now rewrite map_map.
Qed.

Lemma lanes_length_2d (arr : ndarray) (n m : nat) :
  shape arr = [n; m] -> List.length (lanes arr) = n.
Proof.
  intros H. rewrite (lanes_2d arr H). now rewrite length_map, length_seq.
Qed.

Lemma flat_map_seq_blocks (k n : nat) :
  flat_map (fun i => seq (i * k) k) (seq 0 n) = seq 0 (n * k).
Proof.
  induction n as [|n IH]; auto.
  rewrite seq_S, flat_map_app, IH. simpl flat_map.
  rewrite app_nil_r, <- seq_app. f_equal. lia.
Qed.

Lemma seq_offset (a k : nat) :
  map (fun e => (a + e)%nat) (seq 0 k) = seq a k.
Proof.
  induction a as [|a IH]; simpl.
  - apply map_id.
  - rewrite <- seq_shift, <- IH, map_map. reflexivity.
Qed.

Lemma out_idx_2d (k n : nat) :
  flat_map (fun i =>
    flat_map (fun e =>
      map (fun j => ((i * prod [] + j) * k + e)%nat) (seq 0 (prod [])))
      (seq 0 k))
    (seq 0 n)
  = seq 0 (n * k).
Proof.
  rewrite <- flat_map_seq_blocks.
  apply flat_map_ext. intros i.
  change (prod []) with 1%nat. change (seq 0 1) with [0%nat]. cbn [map].
  rewrite flat_map_single, <- (seq_offset (i * k) k).
  apply map_ext. intros e. lia.
Qed.

(** ** Running the helper on a function of the elements *)

Section Implements.

Variable fn : ndarray -> M ndarray.
Variable g : list R -> result (list nat * list R).
Hypothesis fn_g : implements fn g.

Lemma implements_frame (s : store) (v : ndarray) :
  is_vector v -> frame s (snd (fn v s)).
Proof. intros Hv. now destruct (fn_g s Hv). Qed.

(** One call of [fn] on a vector whose value under [g] is known. *)
Lemma implements_ok (s : store) (v : ndarray) (sh : list nat) (d : list R) :
  is_vector v -> g (elems s v) = Ok (sh, d) ->
  exists a s', fn v s = (Ok a, s') /\ frame s s' /\
               shape a = sh /\ elems s' a = d /\ List.length d = prod sh.
Proof.
  intros Hv Hg. destruct (fn_g s Hv) as (F & G).
  rewrite Hg in G. destruct G as (L & a & E & Sa & Ea).
  destruct (fn v s) as [r s']; simpl in *. subst r.
  exists a, s'. splits; auto.
Qed.

Lemma implements_raise (s : store) (v : ndarray) (e : exn) :
  is_vector v -> g (elems s v) = Raise e ->
  exists s', fn v s = (Raise e, s') /\ frame s s'.
Proof.
  intros Hv Hg. destruct (fn_g s Hv) as (F & G).
  rewrite Hg in G.
  destruct (fn v s) as [r s']; simpl in *. subst r.
  exists s'. splits; auto.
Qed.

Lemma concat_length_uniform (s0 : store) (sh : list nat)
    (ls : list ndarray) (ds : list (list R)) :
  Forall (fun v => is_vector v /\ (base v < List.length (heap s0))%nat) ls ->
  Forall2 (fun v d => g (elems s0 v) = Ok (sh, d)) ls ds ->
  List.length (concat ds) = (List.length ls * prod sh)%nat.
Proof.
  intros Hls Hds. induction Hds as [|v d ls ds Hd Hds IH]; auto.
  inversion Hls as [|? ? [Hv _] Hls']; subst.
  destruct (implements_ok s0 Hv Hd) as (_ & _ & _ & _ & _ & _ & L).
  simpl. rewrite length_app, L, IH; auto.
Qed.

Lemma fill_ok (s0 : store) (buff : ndarray) (sh : list nat) :
  (List.length (heap s0) <= base buff)%nat ->
  forall (ls : list ndarray) (ds : list (list R)) (i : nat) (s : store)
         (pre post : list R),
    frame s0 s ->
    (base buff < List.length (heap s))%nat ->
    Forall (fun v => is_vector v /\ (base v < List.length (heap s0))%nat) ls ->
    Forall2 (fun v d => g (elems s0 v) = Ok (sh, d)) ls ds ->
    buffer s (base buff)
    = pre ++ repeat 0%R (List.length ls * prod sh) ++ post ->
    List.length pre = (i * prod sh)%nat ->
    exists s', fill fn buff sh i ls s = (Ok tt, s') /\
               frame s0 s' /\
               (base buff < List.length (heap s'))%nat /\
               buffer s' (base buff) = pre ++ concat ds ++ post.
Proof.
  intros Hb ls. induction ls as [|v ls IH];
    intros ds i s pre post F Hbs Hls Hds Hbuf Hpre.
  - inversion Hds; subst. exists s. simpl in *. splits; auto.
  - inversion Hds as [|? d ? ds' Hd Hds']; subst.
    inversion Hls as [|? ? [Hv Hvb] Hls']; subst.
    assert (Hg : g (elems s v) = Ok (sh, d))
      by (rewrite (frame_elems v F Hvb); exact Hd).
    destruct (implements_ok s Hv Hg) as (a & s1 & E1 & F1 & Sa & Ea & L).
    cbn [fill]. unfold bind at 1. rewrite E1.
    unfold load at 1. unfold bind at 1.
    rewrite Sa, Ea, (broadcast_same sh d L).
    unfold bind at 1.
    set (s2 := snd (assign (slot buff sh i) d s1)).
    change (assign (slot buff sh i) d s1) with (Ok tt, s2).
    cbv beta iota.
    assert (Hbuf1 : buffer s1 (base buff)
                    = pre ++ repeat 0%R (prod sh)
                          ++ (repeat 0%R (List.length ls * prod sh) ++ post)).
    { destruct F1 as [_ B1]. rewrite (B1 _ Hbs), Hbuf. simpl.
      now rewrite repeat_app, <- app_assoc. }
    assert (Hbs1 : (base buff < List.length (heap s1))%nat)
      by (destruct F1; lia).
    assert (Hbuf2 : buffer s2 (base buff)
                    = (pre ++ d) ++ repeat 0%R (List.length ls * prod sh)
                                 ++ post).
    { unfold s2, assign, slot, buffer; simpl.
      rewrite nth_upd_same by exact Hbs1.
      fold (buffer s1 (base buff)). rewrite Hbuf1.
      pose proof (@write_buf_block pre (repeat 0%R (prod sh))
                    (repeat 0%R (List.length ls * prod sh) ++ post) d) as W.
      rewrite repeat_length, Hpre in W. rewrite W by exact L.
      now rewrite <- app_assoc. }
    assert (F2 : frame s0 s2).
    { unfold s2. apply frame_assign; [eapply frame_trans; eauto | exact Hb]. }
    assert (Hbs2 : (base buff < List.length (heap s2))%nat).
    { unfold s2, assign; simpl. now rewrite upd_length. }
    destruct (IH ds' (S i) s2 (pre ++ d) post F2 Hbs2 Hls' Hds' Hbuf2)
      as (s' & E & F' & Hb' & Hbuf').
    { rewrite length_app, Hpre, L. simpl. lia. }
    exists s'. splits; auto.
    + rewrite Hbuf'. simpl. now rewrite <- !app_assoc.
Qed.

Lemma apply_along_axis_2d (arr : ndarray) (n m : nat) (s : store)
    (sh : list nat) (ds : list (list R)) :
  shape arr = [n; m] -> List.length (idx arr) = (n * m)%nat ->
  (base arr < List.length (heap s))%nat ->
  (0 < n)%nat ->
  Forall2 (fun row d => g row = Ok (sh, d)) (chunks m n (elems s arr)) ds ->
  exists out s', apply_along_axis fn arr s = (Ok out, s') /\
                 frame s s' /\
                 shape out = n :: sh /\ elems s' out = concat ds.
Proof.
  intros Hs Hl Hb Hn Hds.
  rewrite <- (lanes_rows s arr Hs Hl) in Hds.
  pose proof (lanes_vector arr) as Hvec.
  pose proof (lanes_base arr) as Hbase.
  pose proof (lanes_length_2d arr Hs) as Hlen.
  unfold apply_along_axis. rewrite Hs.
  destruct (lanes arr) as [|v0 vs]; simpl in Hlen; [lia|].
  inversion Hvec as [|? ? Hv0 Hvs]; subst.
  inversion Hbase as [|? ? Hb0 Hbs]; subst.
  inversion Hds as [|? d0 ? ds' Hd0 Hds']; subst.
  destruct (implements_ok s Hv0 Hd0) as (a & s1 & E1 & F1 & Sa & Ea & L).
  subst sh d0.
  set (k := prod (shape a)) in *.
  set (z := repeat 0%R (prod (([S (List.length vs)] ++ []) ++ shape a))).
  set (buff := mk_ndarray (List.length (heap s1)) (seq 0 (List.length z))
                          (([S (List.length vs)] ++ []) ++ shape a)).
  set (s2 := mk_store (heap s1 ++ [z]) (warned s1)).
  set (s3 := snd (assign (slot buff (shape a) 0) (elems s1 a) s2)).
  assert (Hz : z = repeat 0%R k ++ repeat 0%R (List.length vs * k)).
  { unfold z. rewrite <- repeat_app. f_equal; simpl; try fold k; try lia. }
  assert (F2 : frame s s2) by (apply frame_push; exact F1).
  assert (Hbb : (List.length (heap s) <= base buff)%nat)
    by (destruct F1; simpl; lia).
  assert (F3 : frame s s3) by (apply frame_assign; assumption).
  assert (Hb3 : (base buff < List.length (heap s3))%nat).
  { unfold s3, assign, s2; simpl. rewrite upd_length, length_app; simpl. lia. }
  assert (Hbuf3 : buffer s3 (base buff)
                  = elems s1 a ++ repeat 0%R (List.length vs * k) ++ []).
  { unfold s3, assign, slot, buffer; simpl.
    rewrite nth_upd_same by (rewrite length_app; simpl; lia).
    rewrite app_nth2, Nat.sub_diag by lia. simpl nth.
    rewrite Hz. fold k.
    pose proof (@write_buf_block [] (repeat 0%R k)
                  (repeat 0%R (List.length vs * k)) (elems s1 a)) as W.
    rewrite repeat_length in W. simpl in W. rewrite W by exact L.
    now rewrite app_nil_r. }
  assert (Hls : Forall (fun v => is_vector v /\
                                 (base v < List.length (heap s))%nat) vs).
  { apply Forall_forall. intros v Hv.
    rewrite Forall_forall in Hvs, Hbs.
    split; [now apply Hvs | rewrite (Hbs v Hv); exact Hb]. }
  assert (Hds2 : Forall2 (fun v d => g (elems s v) = Ok (shape a, d)) vs ds').
  { clear - Hds'. remember (map (elems s) vs) as rows eqn:E.
    revert vs E. induction Hds'; intros [|v vs] E; simpl in E;
      try discriminate; constructor; inversion E; subst; auto. }
  destruct (@fill_ok s buff (shape a) Hbb vs ds' 1%nat s3 (elems s1 a) []
              F3 Hb3 Hls Hds2)
    as (s' & E & F' & Hb' & Hbuf'); [exact Hbuf3 | fold k; lia |].
  erewrite bind_ok; [|exact E1]. cbv beta.
  erewrite bind_ok; [|reflexivity]. cbv beta zeta.
  erewrite bind_ok; [|reflexivity]. cbv beta.
  erewrite bind_ok; [|reflexivity]. cbv beta.
  erewrite bind_ok; [|exact E]. cbv beta.
  eexists; exists s'. split; [reflexivity|].
  splits; auto.
  - simpl. now rewrite app_nil_r.
  - unfold elems. cbn [base idx]. rewrite out_idx_2d.
    change (buffer s' (List.length (heap s1)))
      with (buffer s' (base buff)).
    rewrite Hbuf', app_nil_r.
    replace (S (List.length vs) * prod (shape a))%nat
      with (List.length (elems s1 a ++ concat ds')).
    + apply map_nth_seq.
    + rewrite length_app, L.
      rewrite (@concat_length_uniform s (shape a) vs ds' Hls Hds2). simpl. lia.
Qed.

Lemma apply_along_axis_first_raise (arr : ndarray) (n m : nat) (s : store)
    (e : exn) :
  shape arr = [n; m] -> List.length (idx arr) = (n * m)%nat ->
  (0 < n)%nat ->
  g (hd [] (chunks m n (elems s arr))) = Raise e ->
  exists s', apply_along_axis fn arr s = (Raise e, s') /\
             frame s s'.
Proof.
  intros Hs Hl Hn Hg.
  rewrite <- (lanes_rows s arr Hs Hl) in Hg.
  pose proof (lanes_vector arr) as Hvec.
  pose proof (lanes_length_2d arr Hs) as Hlen.
  unfold apply_along_axis. rewrite Hs.
  destruct (lanes arr) as [|v0 vs]; simpl in Hlen; [lia|].
  inversion Hvec as [|? ? Hv0 Hvs]; subst.
  destruct (implements_raise s Hv0 Hg) as (s' & E & F).
  exists s'. erewrite bind_raise; [|exact E]. auto.
Qed.

(** The helper on a 2-D array. *)
Lemma helper_2d (input : ndarray) (n m : nat) (s : store)
    (sh : list nat) (ds : list (list R)) :
  shape input = [n; m] -> List.length (idx input) = (n * m)%nat ->
  (base input < List.length (heap s))%nat ->
  (0 < n)%nat ->
  Forall2 (fun row d => g row = Ok (sh, d)) (chunks m n (elems s input)) ds ->
  exists out s', _apply_fn_agnostic_to_vec_mat input fn s = (Ok out, s') /\
                 frame s s' /\
                 shape out = n :: sh /\ elems s' out = concat ds.
Proof.
  intros Hs Hl Hb Hn Hds.
  destruct (apply_along_axis_2d input s Hs Hl Hb Hn Hds)
    as (out & s' & E & F & So & Eo).
  exists out, s'. split; [|auto].
  unfold _apply_fn_agnostic_to_vec_mat, ndim. rewrite Hs. simpl Nat.eqb.
  cbv iota.
  erewrite bind_ok; [|reflexivity]. cbv beta.
  erewrite bind_ok; [|exact E]. reflexivity.
Qed.

(** The 2-D array the helper makes of a vector. *)
Lemma wrapped_rows (s : store) (d : list R) (m : nat) :
  List.length d = m ->
  chunks m 1 (elems (push s d)
                (whole (List.length (heap s)) (List.length d) [1%nat; m]))
  = [d].
Proof.
  intros H. rewrite elems_whole. simpl. now rewrite firstn_all2 by lia.
Qed.

(** The helper on a vector whose value under [g] is known. *)
Lemma helper_1d_ok (input : ndarray) (s : store) (sh : list nat) (d : list R) :
  is_vector input -> g (elems s input) = Ok (sh, d) ->
  exists out s', _apply_fn_agnostic_to_vec_mat input fn s = (Ok out, s') /\
                 frame s s' /\
                 shape out = sh /\ elems s' out = d.
Proof.
  intros Hv Hg. red in Hv.
  set (d0 := elems s input) in *.
  assert (Hd0 : List.length d0 = List.length (idx input)) by apply length_map.
  set (arr := whole (List.length (heap s)) (List.length d0)
                    (1%nat :: shape input)).
  assert (Hs : shape arr = [1%nat; List.length (idx input)])
    by (unfold arr; simpl; now rewrite Hv).
  assert (Hl : List.length (idx arr) = (1 * List.length (idx input))%nat)
    by (unfold arr; simpl; rewrite length_seq; lia).
  assert (Hb : (base arr < List.length (heap (push s d0)))%nat)
    by (unfold arr, push; simpl; rewrite length_app; simpl; lia).
  assert (Hds : Forall2 (fun row d => g row = Ok (sh, d))
                  (chunks (List.length (idx input)) 1 (elems (push s d0) arr))
                  [d]).
  { unfold arr. rewrite Hv, wrapped_rows by exact Hd0.
    constructor; [exact Hg | constructor]. }
  destruct (apply_along_axis_2d arr (push s d0) Hs Hl Hb Nat.lt_0_1 Hds)
    as (out & s' & E & F & So & Eo).
  assert (L : List.length d = prod sh).
  { destruct (implements_ok s Hv Hg) as (_ & _ & _ & _ & _ & _ & L).
    exact L. }
  exists (mk_ndarray (base out) (firstn (prod sh) (idx out)) sh), s'.
  splits; auto.
  - unfold _apply_fn_agnostic_to_vec_mat, ndim. rewrite Hv. simpl Nat.eqb.
    cbv iota.
    erewrite bind_ok; [|apply np_array1_run]. cbv beta.
    erewrite bind_ok; [|exact E]. cbv beta.
    unfold first_item. now rewrite So.
  - eapply frame_trans; [apply frame_push_one | exact F].
  - unfold elems in *. simpl base; simpl idx.
    rewrite <- firstn_map, Eo. simpl. rewrite app_nil_r.
    apply firstn_all2. lia.
Qed.

(** The helper on a vector on which [g] raises. *)
Lemma helper_1d_raise (input : ndarray) (s : store) (e : exn) :
  is_vector input -> g (elems s input) = Raise e ->
  exists s', _apply_fn_agnostic_to_vec_mat input fn s = (Raise e, s') /\
             frame s s'.
Proof.
  intros Hv Hg. red in Hv.
  set (d0 := elems s input) in *.
  assert (Hd0 : List.length d0 = List.length (idx input)) by apply length_map.
  set (arr := whole (List.length (heap s)) (List.length d0)
                    (1%nat :: shape input)).
  assert (Hs : shape arr = [1%nat; List.length (idx input)])
    by (unfold arr; simpl; now rewrite Hv).
  assert (Hl : List.length (idx arr) = (1 * List.length (idx input))%nat)
    by (unfold arr; simpl; rewrite length_seq; lia).
  assert (Hr : g (hd [] (chunks (List.length (idx input)) 1
                           (elems (push s d0) arr))) = Raise e).
  { unfold arr. rewrite Hv, wrapped_rows by exact Hd0. exact Hg. }
  destruct (apply_along_axis_first_raise arr (push s d0) Hs Hl Nat.lt_0_1 Hr)
    as (s' & E & F).
  exists s'. splits; auto.
  - unfold _apply_fn_agnostic_to_vec_mat, ndim. rewrite Hv. simpl Nat.eqb.
    cbv iota.
    erewrite bind_ok; [|apply np_array1_run]. cbv beta.
    erewrite bind_raise; [|exact E]. reflexivity.
  - eapply frame_trans; [apply frame_push_one | exact F].
Qed.

End Implements.

(** ** Q2Q on one quaternion *)

Lemma q2q_frame (EPSILON : R) (op : list string) (wxyz_in : bool)
    (s : store) (v : ndarray) :
  is_vector v -> frame s (snd (q2q EPSILON op wxyz_in v s)).
Proof.
  intros Hv. exact (implements_frame (q2q_implements EPSILON op wxyz_in) s Hv).
Qed.

Lemma quaternion_is_vector (s : store) (Q : ndarray) (a b c d : R) :
  shape Q = [4%nat] -> elems s Q = [a; b; c; d] -> is_vector Q.
Proof.
  intros Hs He. red. rewrite Hs.
  apply (f_equal (@List.length R)) in He.
  unfold elems in He. rewrite length_map in He. simpl in He. congruence.
Qed.

(** [Q2Q] on a quaternion stored as a 1-D array returns what [q2q_value]
    gives for its elements. *)
Lemma Q2Q_value_ok (EPSILON : R) (op : list string) (wxyz_in : bool)
    (s : store) (Q : ndarray) (sh : list nat) (d : list R) :
  is_vector Q -> q2q_value EPSILON op wxyz_in (elems s Q) = Ok (sh, d) ->
  exists out s', Q2Q EPSILON Q op wxyz_in s = (Ok out, s') /\
                 frame s s' /\
                 shape out = sh /\ elems s' out = d.
Proof.
  intros Hv Hg. unfold Q2Q.
  exact (helper_1d_ok (q2q_implements EPSILON op wxyz_in) s Hv Hg).
Qed.

Lemma Q2Q_value_raise (EPSILON : R) (op : list string) (wxyz_in : bool)
    (s : store) (Q : ndarray) (e : exn) :
  is_vector Q -> q2q_value EPSILON op wxyz_in (elems s Q) = Raise e ->
  exists s', Q2Q EPSILON Q op wxyz_in s = (Raise e, s') /\
             frame s s'.
Proof.
  intros Hv Hg. unfold Q2Q.
  exact (helper_1d_raise (q2q_implements EPSILON op wxyz_in) s Hv Hg).
Qed.

Lemma sum_sq_4 (a b c d : R) :
  sum_sq [a; b; c; d] = (a * a + b * b + c * c + d * d)%R.
Proof. unfold sum_sq; simpl; ring. Qed.

(** C3: Q2Q with 'normalize' raises the zero-length exception exactly when the
    norm of the quaternion is below EPSILON (whatever other operations are
    asked for); with 'normalize' alone it otherwise returns the quaternion
    divided by its norm. *)
Theorem Q2Q_normalize (EPSILON : R) (s : store) (Q : ndarray) (a b c d : R)
    (wxyz_in : bool) :
  shape Q = [4%nat] -> elems s Q = [a; b; c; d] ->
  let norm := sqrt (a * a + b * b + c * c + d * d) in
  (forall op, contains "normalize" op = true ->
     ((norm < EPSILON)%R ->
        fst (Q2Q EPSILON Q op wxyz_in s)
        = Raise (Exception "Invalid input with zero length")) /\
     (~ (norm < EPSILON)%R ->
        is_ok (fst (Q2Q EPSILON Q op wxyz_in s)) = true)) /\
  (~ (norm < EPSILON)%R ->
     exists out s',
       Q2Q EPSILON Q ["normalize"%string] wxyz_in s = (Ok out, s') /\
       shape out = [4%nat] /\
       elems s' out = [a / norm; b / norm; c / norm; d / norm]%R) /\
  (a = 2%R -> b = 0%R -> c = 0%R -> d = 0%R -> ~ (2 < EPSILON)%R ->
     exists out s',
       Q2Q EPSILON Q ["normalize"%string] wxyz_in s = (Ok out, s') /\
       elems s' out = [1; 0; 0; 0]%R).
Proof.
  intros Hs He norm.
  pose proof (quaternion_is_vector s Q Hs He) as Hv.
  assert (Hn : sqrt (sum_sq [a; b; c; d]) = norm)
    by (unfold norm; now rewrite sum_sq_4).
  assert (Hval : ~ (norm < EPSILON)%R ->
     exists out s',
       Q2Q EPSILON Q ["normalize"%string] wxyz_in s = (Ok out, s') /\
       shape out = [4%nat] /\
       elems s' out = [a / norm; b / norm; c / norm; d / norm]%R).
  { intros Hge.
    destruct (@Q2Q_value_ok EPSILON ["normalize"%string] wxyz_in s Q [4%nat]
                [a / norm; b / norm; c / norm; d / norm]%R Hv)
      as (out & s' & E & _ & So & Eo).
    + unfold q2q_value. cbn [contains existsb String.eqb Ascii.eqb Bool.eqb orb].
      rewrite He, Hn.
      destruct (Rlt_dec norm EPSILON); [contradiction|]. reflexivity.
    + exists out, s'. auto. }
  split; [|split; [exact Hval|]].
  - intros op Hop. split; intros Hlt.
    + destruct (@Q2Q_value_raise EPSILON op wxyz_in s Q
                  (Exception "Invalid input with zero length") Hv)
        as (s' & E & _).
      * unfold q2q_value. rewrite Hop, He, Hn.
        destruct (Rlt_dec norm EPSILON); [reflexivity | contradiction].
      * now rewrite E.
    + assert (exists sh r, q2q_value EPSILON op wxyz_in (elems s Q)
                           = Ok (sh, r)) as (sh & r & Hg).
      { unfold q2q_value. rewrite Hop, He, Hn.
        destruct (Rlt_dec norm EPSILON); [contradiction|].
        destruct (contains "halfspace" op), wxyz_in;
          cbn [map List.length nth Nat.ltb Nat.leb];
          repeat match goal with
                 | |- context [Rlt_dec ?x ?y] => destruct (Rlt_dec x y)
                 end;
          destruct (contains "change_order" op); cbn; eauto. }
      destruct (Q2Q_value_ok EPSILON op wxyz_in s Hv Hg) as (out & s' & E & _).
      now rewrite E.
  - intros -> -> -> -> Hge.
    assert (N2 : norm = 2%R).
    { unfold norm.
      replace (2 * 2 + 0 * 0 + 0 * 0 + 0 * 0)%R with (2 * 2)%R by ring.
      apply sqrt_square. lra. }
    rewrite N2 in Hval. destruct (Hval Hge) as (out & s' & E & _ & Eo).
    exists out, s'. split; [exact E|]. rewrite Eo.
    repeat f_equal; lra.
Qed.

Lemma Q2Q_normalize_witness :
  shape (vector0 4) = [4%nat] /\
  elems (store_of [2; 0; 0; 0]%R) (vector0 4) = [2; 0; 0; 0]%R /\
  exists out s',
    Q2Q (1 / 1000) (vector0 4) ["normalize"%string] true (store_of [2; 0; 0; 0]%R)
    = (Ok out, s') /\
    elems s' out = [1; 0; 0; 0]%R.
Proof.
  split; [reflexivity|]. split; [reflexivity|].
  apply (@Q2Q_normalize (1 / 1000) (store_of [2; 0; 0; 0]%R) (vector0 4) 2 0 0 0 true
           eq_refl eq_refl); try reflexivity.
  lra.
Defined.


(** C8: Q2Q with 'change_order' alone reorders the components: a quaternion
    declared (w,x,y,z) comes back as (x,y,z,w), and one declared (x,y,z,w)
    comes back as (w,x,y,z). *)
Theorem Q2Q_change_order (EPSILON : R) (s : store) (Q : ndarray)
    (q0 q1 q2 q3 : R) :
  shape Q = [4%nat] -> elems s Q = [q0; q1; q2; q3] ->
  (exists out s',
     Q2Q EPSILON Q ["change_order"%string] true s = (Ok out, s') /\
     shape out = [4%nat] /\ elems s' out = [q1; q2; q3; q0]) /\
  (exists out s',
     Q2Q EPSILON Q ["change_order"%string] false s = (Ok out, s') /\
     shape out = [4%nat] /\ elems s' out = [q3; q0; q1; q2]).
Proof.
  intros Hs He.
  pose proof (quaternion_is_vector s Q Hs He) as Hv.
  split.
  - destruct (@Q2Q_value_ok EPSILON ["change_order"%string] true s Q [4%nat]
                [q1; q2; q3; q0] Hv) as (out & s' & E & _ & So & Eo).
    + unfold q2q_value. rewrite He. reflexivity.
    + exists out, s'. auto.
  - destruct (@Q2Q_value_ok EPSILON ["change_order"%string] false s Q [4%nat]
                [q3; q0; q1; q2] Hv) as (out & s' & E & _ & So & Eo).
    + unfold q2q_value. rewrite He. reflexivity.
    + exists out, s'. auto.
Qed.

Lemma Q2Q_change_order_witness :
  shape (vector0 4) = [4%nat] /\
  elems (store_of [1; 2; 3; 4]%R) (vector0 4) = [1; 2; 3; 4]%R /\
  exists out s',
    Q2Q (1 / 1000) (vector0 4) ["change_order"%string] true
        (store_of [1; 2; 3; 4]%R) = (Ok out, s') /\
    shape out = [4%nat] /\ elems s' out = [2; 3; 4; 1]%R.
Proof.
  split; [reflexivity|]. split; [reflexivity|].
  exact (proj1 (@Q2Q_change_order (1 / 1000) (store_of [1; 2; 3; 4]%R)
                  (vector0 4) 1 2 3 4 eq_refl eq_refl)).
Defined.

(** C10: Q2Q with 'halfspace' alone reads the scalar component at index 0 when
    the input is declared (w,x,y,z) and at index 3 when it is declared
    (x,y,z,w); it negates the whole quaternion when that component is
    negative and leaves it as it is otherwise, so that the scalar component
    of the result is never negative. *)
Theorem Q2Q_halfspace (EPSILON : R) (s : store) (Q : ndarray)
    (q0 q1 q2 q3 : R) (wxyz_in : bool) :
  shape Q = [4%nat] -> elems s Q = [q0; q1; q2; q3] ->
  let w_idx := if wxyz_in then 0%nat else 3%nat in
  let w := nth w_idx [q0; q1; q2; q3] 0%R in
  exists out s',
    Q2Q EPSILON Q ["halfspace"%string] wxyz_in s = (Ok out, s') /\
    shape out = [4%nat] /\
    elems s' out = (if Rlt_dec w 0 then [- q0; - q1; - q2; - q3]
                    else [q0; q1; q2; q3])%R /\
    (0 <= nth w_idx (elems s' out) 0)%R.
Proof.
  intros Hs He w_idx w.
  pose proof (quaternion_is_vector s Q Hs He) as Hv.
  destruct (@Q2Q_value_ok EPSILON ["halfspace"%string] wxyz_in s Q [4%nat]
              (if Rlt_dec w 0 then [- q0; - q1; - q2; - q3]
               else [q0; q1; q2; q3])%R Hv)
    as (out & s' & E & _ & So & Eo).
  - unfold q2q_value. rewrite He. unfold w, w_idx.
    destruct wxyz_in; cbn [contains existsb String.eqb Ascii.eqb Bool.eqb orb
                           List.length Nat.ltb Nat.leb nth map];
      match goal with |- context [Rlt_dec ?x 0] => destruct (Rlt_dec x 0) end;
      cbn; repeat f_equal; ring.
  - exists out, s'. splits; auto.
    rewrite Eo. unfold w, w_idx.
    destruct wxyz_in; cbn [nth];
      match goal with |- context [Rlt_dec ?x 0] => destruct (Rlt_dec x 0) end;
      cbn [nth]; lra.
Qed.

Lemma Q2Q_halfspace_witness :
  shape (vector0 4) = [4%nat] /\
  elems (store_of [0; 0; 0; -1]%R) (vector0 4) = [0; 0; 0; -1]%R /\
  exists out s',
    Q2Q (1 / 1000) (vector0 4) ["halfspace"%string] false
        (store_of [0; 0; 0; -1]%R) = (Ok out, s') /\
    elems s' out = [-0; -0; -0; - -1]%R.
Proof.
  split; [reflexivity|]. split; [reflexivity|].
  destruct (@Q2Q_halfspace (1 / 1000) (store_of [0; 0; 0; -1]%R) (vector0 4)
              0 0 0 (-1) false eq_refl eq_refl)
    as (out & s' & E & _ & Eo & _).
  exists out, s'. split; [exact E|]. rewrite Eo. cbn [nth].
  destruct (Rlt_dec (-1) 0); [reflexivity | lra].
Defined.

(** C9: Q2Q leaves the array it is given as it is: whatever the operations and
    whether the call returns or raises, every buffer of the store before the
    call is unchanged after it, and so are the elements of the input. *)
Theorem Q2Q_keeps_input (EPSILON : R) (s : store) (Q : ndarray)
    (op : list string) (wxyz_in : bool) :
  (base Q < List.length (heap s))%nat ->
  frame s (snd (Q2Q EPSILON Q op wxyz_in s)) /\
  elems (snd (Q2Q EPSILON Q op wxyz_in s)) Q = elems s Q.
Proof.
  intros Hb.
  assert (F : frame s (snd (Q2Q EPSILON Q op wxyz_in s))).
  { unfold Q2Q. apply helper_frame. intros s1 v Hv. now apply q2q_frame. }
  split; [exact F | now apply frame_elems].
Qed.

Lemma Q2Q_keeps_input_witness :
  (base (vector0 4) < List.length (heap (store_of [0; 0; 0; -2]%R)))%nat /\
  elems (snd (Q2Q (1 / 1000) (vector0 4)
                  ["normalize"; "halfspace"; "change_order"]%string false
                  (store_of [0; 0; 0; -2]%R)))
        (vector0 4)
  = elems (store_of [0; 0; 0; -2]%R) (vector0 4).
Proof.
  split; [simpl; lia|].
  apply (@Q2Q_keeps_input (1 / 1000) (store_of [0; 0; 0; -2]%R) (vector0 4)
           ["normalize"; "halfspace"; "change_order"]%string false).
  simpl; lia.
Defined.

(** The helper on a batch of no rows, whatever the function. *)
Lemma helper_no_rows (fn : ndarray -> M ndarray) (input : ndarray) (m : nat)
    (s : store) :
  shape input = [0%nat; m] ->
  _apply_fn_agnostic_to_vec_mat input fn s = (Raise ValueError, s).
Proof.
  intros Hs.
  unfold _apply_fn_agnostic_to_vec_mat, ndim. rewrite Hs.
  cbn [List.length Nat.eqb]. cbv iota.
  erewrite bind_ok; [|reflexivity]. cbv beta.
  erewrite bind_raise; [reflexivity|].
  unfold apply_along_axis, lanes. rewrite Hs. reflexivity.
Qed.

(** C6: for a function [fn] that computes a function [g] of the elements of a
    vector, the helper applied to a 1-D array returns [fn]'s own result, with
    its shape and no added dimension; applied to a 2-D array of [n >= 1]
    rows on which all results have one shape [sh], it returns an array of
    shape [n :: sh] holding the results of the rows in order; applied to a
    2-D array of no rows it raises [ValueError]. *)
Theorem helper_batching (fn : ndarray -> M ndarray)
    (g : list R -> result (list nat * list R)) :
  implements fn g ->
  (forall s input sh d,
     is_vector input -> g (elems s input) = Ok (sh, d) ->
     exists out s',
       _apply_fn_agnostic_to_vec_mat input fn s = (Ok out, s') /\
       shape out = sh /\ elems s' out = d) /\
  (forall s input n m sh ds,
     shape input = [n; m] -> List.length (idx input) = (n * m)%nat ->
     (base input < List.length (heap s))%nat -> (0 < n)%nat ->
     Forall2 (fun row d => g row = Ok (sh, d))
             (chunks m n (elems s input)) ds ->
     exists out s',
       _apply_fn_agnostic_to_vec_mat input fn s = (Ok out, s') /\
       shape out = n :: sh /\ elems s' out = concat ds) /\
  (forall s input m,
     shape input = [0%nat; m] ->
     _apply_fn_agnostic_to_vec_mat input fn s = (Raise ValueError, s)).
Proof.
  intros Hfn. split; [|split].
  - intros s input sh d Hv Hg.
    destruct (helper_1d_ok Hfn s Hv Hg) as (out & s' & E & _ & So & Eo).
    exists out, s'. auto.
  - intros s input n m sh ds Hs Hl Hb Hn Hds.
    destruct (helper_2d Hfn input s Hs Hl Hb Hn Hds)
      as (out & s' & E & _ & So & Eo).
    exists out, s'. auto.
  - intros s input m Hs. exact (@helper_no_rows fn input m s Hs).
Qed.

Lemma helper_batching_witness :
  implements (q2q (1 / 1000) ["change_order"%string] true)
             (q2q_value (1 / 1000) ["change_order"%string] true) /\
  (exists out s',
     _apply_fn_agnostic_to_vec_mat (vector0 4)
       (q2q (1 / 1000) ["change_order"%string] true)
       (store_of [1; 2; 3; 4]%R) = (Ok out, s') /\
     shape out = [4%nat] /\ elems s' out = [2; 3; 4; 1]%R) /\
  (exists out s',
     _apply_fn_agnostic_to_vec_mat (whole 0 8 [2; 4]%nat)
       (q2q (1 / 1000) ["change_order"%string] true)
       (store_of [1; 2; 3; 4; 5; 6; 7; 8]%R) = (Ok out, s') /\
     shape out = [2; 4]%nat /\
     elems s' out = [2; 3; 4; 1; 6; 7; 8; 5]%R) /\
  _apply_fn_agnostic_to_vec_mat (whole 0 0 [0; 4]%nat)
    (q2q (1 / 1000) ["change_order"%string] true) (store_of [])
  = (Raise ValueError, store_of []).
Proof.
  pose proof (q2q_implements (1 / 1000) ["change_order"%string] true) as Hfn.
  destruct (helper_batching Hfn) as (H1 & H2 & H3).
  split; [exact Hfn|]. split; [|split].
  - apply (H1 (store_of [1; 2; 3; 4]%R) (vector0 4)); reflexivity.
  - apply (H2 (store_of [1; 2; 3; 4; 5; 6; 7; 8]%R) (whole 0 8 [2; 4]%nat)
              2%nat 4%nat [4%nat] [[2; 3; 4; 1]; [6; 7; 8; 5]]%R);
      try reflexivity; try (simpl; lia).
    repeat constructor.
  - apply (H3 (store_of []) (whole 0 0 [0; 4]%nat) 4%nat). reflexivity.
Defined.

(** C6, as stated, fails in three ways.  On a batch of no rows
    [np.apply_along_axis] raises [ValueError] instead of returning an array
    whose leading axis has length 0.  When the results differ in shape, here
    one element for the first row and two for the second, the second does
    not fit the slot made for the first and the helper raises [ValueError],
    though the function returns on each row.  On an array of more than two
    dimensions, here of shape (2, 3, 4), the function is applied along
    axis 1, to vectors of 3 elements, not to the 2 x 3 vectors of 4
    elements: reordering the components raises [IndexError]. *)
Lemma helper_breaks_symmetry :
  _apply_fn_agnostic_to_vec_mat (whole 0 0 [0; 4]%nat)
    (q2q (1 / 1000) [] true) (store_of [])
  = (Raise ValueError, store_of []) /\
  (Forall (fun v => is_ok (fst (first_if_negative v
                                  (store_of [-1; 2; 3; 4]%R))) = true)
          (lanes (whole 0 4 [2; 2]%nat)) /\
   fst (_apply_fn_agnostic_to_vec_mat (whole 0 4 [2; 2]%nat)
          first_if_negative (store_of [-1; 2; 3; 4]%R))
   = Raise ValueError) /\
  fst (_apply_fn_agnostic_to_vec_mat (whole 0 24 [2; 3; 4]%nat)
         (q2q (1 / 1000) ["change_order"%string] true)
         (store_of (repeat 0%R 24)))
  = Raise IndexError.
Proof.
  split; [reflexivity|]. split; [|reflexivity].
  assert (N : (-1 < 0)%R) by lra.
  assert (P : ~ (3 < 0)%R) by lra.
  split.
  - repeat constructor;
      unfold first_if_negative, bind, getitem, load, elems, ret; cbn;
      match goal with |- context [Rlt_dec ?x 0] => destruct (Rlt_dec x 0) end;
      reflexivity.
  - unfold _apply_fn_agnostic_to_vec_mat, apply_along_axis, first_if_negative,
      bind, getitem, load, elems, ret. cbn.
    destruct (Rlt_dec (-1) 0); [|contradiction].
    unfold bind, load, elems, ret. cbn.
    destruct (Rlt_dec 3 0); [contradiction|].
    reflexivity.
Qed.

(** ** A2A *)

Lemma A2A_returns_argument (A : ndarray) (s : store) : A2A A s = (Ok A, s).
Proof. reflexivity. Qed.

Lemma sqrt_sum_sq_axis (x : R) :
  (0 <= x)%R -> sqrt (sum_sq [x; 0; 0]%R) = x.
Proof.
  intros H. unfold sum_sq; simpl.
  replace (x * x + (0 * 0 + (0 * 0 + 0)))%R with (x * x)%R by ring.
  now apply sqrt_square.
Qed.

Lemma PI_gt_3 : (3 < PI)%R.
Proof. pose proof PI2_3_2. lra. Qed.

(** C1: the axis-angle vector (5, 0, 0) has an angle between pi and 2 pi, and
    A2A returns it as it is, not the vector (-a / theta) * (2 pi - theta). *)
Theorem A2A_above_pi_unchanged :
  let s := store_of [5; 0; 0]%R in
  let A := vector0 3 in
  let theta := sqrt (sum_sq (elems s A)) in
  (PI < theta <= 2 * PI)%R /\
  A2A A s = (Ok A, s) /\
  elems s A = [5; 0; 0]%R /\
  elems s A <> map (fun x => (- x / theta * (2 * PI - theta))%R) (elems s A).
Proof.
  intros s A theta.
  assert (Ht : theta = 5%R).
  { unfold theta. change (elems s A) with [5; 0; 0]%R.
    apply sqrt_sum_sq_axis. lra. }
  pose proof PI_4. pose proof PI_gt_3.
  split; [rewrite Ht; lra|]. split; [reflexivity|]. split; [reflexivity|].
  change (elems s A) with [5; 0; 0]%R. rewrite Ht. cbn [map].
  intros E. injection E as E. lra.
Qed.

(** C2: the axis-angle vector (9, 0, 0) has an angle above 2 pi, and A2A
    returns it as it is and emits no warning. *)
Theorem A2A_above_two_pi_silent :
  let s := store_of [9; 0; 0]%R in
  let A := vector0 3 in
  (2 * PI < sqrt (sum_sq (elems s A)))%R /\
  A2A A s = (Ok A, s) /\
  warned (snd (A2A A s)) = [] /\
  elems (snd (A2A A s)) A = [9; 0; 0]%R.
Proof.
  intros s A.
  pose proof PI_4.
  split.
  - change (elems s A) with [9; 0; 0]%R.
    rewrite sqrt_sum_sq_axis by lra. lra.
  - repeat split.
Qed.

End StoreProps.

Module PureProps.

Import Pure.

Local Open Scope R_scope.

(** ** Vectorised operations on columns of one list of rows *)

Lemma map2_map {A B C D : Type} (f : B -> C -> D) (g : A -> B) (h : A -> C)
    (l : list A) :
  map2 f (map g l) (map h l) = map (fun x => f (g x) (h x)) l.
Proof. induction l; simpl; congruence. Qed.

Lemma stack3_map {A B : Type} (f1 f2 f3 : A -> B) (l : list A) :
  stack3 (map f1 l) (map f2 l) (map f3 l)
  = flat_map (fun x => [f1 x; f2 x; f3 x]) l.
Proof. induction l; simpl; congruence. Qed.

Lemma select_map {A B : Type} (p : A -> bool) (f : A -> B) (l : list A) :
  select (map p l) (map f l) = map f (filter p l).
Proof.
  induction l as [|x t IH]; simpl; auto.
  destruct (p x); simpl; congruence.
Qed.

Lemma masked_set_map {A B : Type} (p : A -> bool) (v e : A -> B) (l : list A) :
  masked_set (map p l) (map v (filter p l)) (map e l)
  = map (fun x => if p x then v x else e x) l.
Proof.
  induction l as [|x t IH]; simpl; auto.
  destruct (p x); simpl; congruence.
Qed.

Lemma masked_fill_map {A B : Type} (p : A -> bool) (c : B) (e : A -> B)
    (l : list A) :
  masked_fill (map p l) c (map e l) = map (fun x => if p x then c else e x) l.
Proof. unfold masked_fill. apply map2_map. Qed.

Lemma repeat_as_map {A B : Type} (c : B) (l : list A) :
  repeat c (List.length l) = map (fun _ => c) l.
Proof. induction l; simpl; congruence. Qed.

Lemma rev_shape (lead : list nat) (tail : list nat) :
  rev (lead ++ tail) = rev tail ++ rev lead.
Proof. apply rev_app_distr. Qed.

(** ** Q2E *)

Ltac fuse :=
  repeat (rewrite map2_map || rewrite map_map || rewrite select_map).

Lemma Q2E_rows (lead : list nat) (d : list R) (epsilon : R) :
  Q2E (mk_ndarray (lead ++ [4%nat]) d) epsilon
  = Ok (mk_ndarray (lead ++ [3%nat])
          (flat_map (euler_of_quaternion epsilon) (chunks 4 (prod lead) d))).
Proof.
  unfold Q2E. cbn [shape data].
  rewrite rev_app_distr. cbn [rev app Nat.eqb]. rewrite rev_involutive.
  cbv zeta. f_equal. f_equal.
  fuse. rewrite stack3_map. reflexivity.
Qed.

(** C7: Q2E returns, for each quaternion (q0, q1, q2, q3) of the batch, the
    angles x = atan2(2(q0 q1 - q2 q3), 1 - 2(q1^2 + q2^2)),
    y = asin(clip(2(q1 q3 + q0 q2), -1 + epsilon, 1 - epsilon)) and
    z = atan2(2(q0 q3 - q1 q2), 1 - 2(q2^2 + q3^2)), in an array whose shape
    is the leading shape of the input followed by 3. *)
Theorem Q2E_formula (epsilon : R) :
  (forall q0 q1 q2 q3 : R,
     Q2E (mk_ndarray [4%nat] [q0; q1; q2; q3]) epsilon
     = Ok (mk_ndarray [3%nat]
             [Some (arctan2 (2 * (q0 * q1 - q2 * q3))
                            (1 - 2 * (q1 * q1 + q2 * q2)));
              arcsin (clip (2 * (q1 * q3 + q0 * q2))
                           (-1 + epsilon) (1 - epsilon));
              Some (arctan2 (2 * (q0 * q3 - q1 * q2))
                            (1 - 2 * (q2 * q2 + q3 * q3)))])) /\
  (forall (lead : list nat) (d : list R),
     Q2E (mk_ndarray (lead ++ [4%nat]) d) epsilon
     = Ok (mk_ndarray (lead ++ [3%nat])
             (flat_map (euler_of_quaternion epsilon)
                       (chunks 4 (prod lead) d)))).
Proof.
  split.
  - intros q0 q1 q2 q3.
    exact (Q2E_rows [] [q0; q1; q2; q3] epsilon).
  - intros lead d. apply Q2E_rows.
Qed.

(** ** R2E *)

Lemma R2E_rows (lead : list nat) (d : list R) :
  R2E (mk_ndarray (lead ++ [3; 3]%nat) d)
  = Ok (mk_ndarray (lead ++ [3%nat])
          (flat_map euler_of_matrix (chunks 9 (prod lead) d))).
Proof.
  unfold R2E. cbn [shape data].
  rewrite rev_app_distr. cbn [rev app Nat.eqb andb]. rewrite rev_involutive.
  cbv zeta. f_equal. f_equal.
  set (rs := chunks 9 (prod lead) d).
  replace (prod lead) with (List.length rs)
    by (unfold rs; apply chunks_length).
  rewrite (repeat_as_map (Some 0) rs).
  repeat (fuse || rewrite masked_fill_map || rewrite masked_set_map).
  rewrite stack3_map. apply flat_map_ext. intros m.
  unfold euler_of_matrix, eqb_R. cbv zeta.
  destruct (Req_dec_T (nth (3 * 0 + 2) m 0) 1) as [E1|N1];
    destruct (Req_dec_T (nth (3 * 0 + 2) m 0) (-1)) as [E2|N2];
    cbn [orb negb]; reflexivity.
Qed.

Lemma chunks_flat_map {A B : Type} (f : A -> list B) (k : nat) (l : list A) :
  (forall x, List.length (f x) = k) ->
  chunks k (List.length l) (flat_map f l) = map f l.
Proof.
  intros H. induction l as [|x t IH]; auto.
  cbn [flat_map List.length map].
  rewrite chunks_app by apply H. now rewrite IH.
Qed.

Lemma euler_of_matrix_length (m : list R) :
  List.length (euler_of_matrix m) = 3%nat.
Proof.
  unfold euler_of_matrix. cbv zeta.
  repeat match goal with
         | |- context [Req_dec_T ?x ?y] => destruct (Req_dec_T x y)
         end; reflexivity.
Qed.

(** C4: on a matrix whose entry R[0,2] is exactly 1, R2E gives
    e1 = atan2(R[0,1], R[0,2]), e2 = -pi/2 and e3 = 0, all three real numbers
    (no special value); on one whose entry R[0,2] is exactly -1 it gives the
    same e1 and e3 with e2 = pi/2.  This holds for a single matrix and for
    each such matrix of a batch. *)
Theorem R2E_gimbal_lock :
  (forall r00 r01 r10 r11 r12 r20 r21 r22 : R,
     R2E (mk_ndarray [3; 3]%nat [r00; r01; 1; r10; r11; r12; r20; r21; r22])
     = Ok (mk_ndarray [3%nat]
             [Some (arctan2 r01 1); Some (- PI / 2); Some 0])) /\
  (forall r00 r01 r10 r11 r12 r20 r21 r22 : R,
     R2E (mk_ndarray [3; 3]%nat [r00; r01; -1; r10; r11; r12; r20; r21; r22])
     = Ok (mk_ndarray [3%nat]
             [Some (arctan2 r01 (-1)); Some (PI / 2); Some 0])) /\
  (forall (lead : list nat) (d : list R) (i : nat) (m : list R),
     nth_error (chunks 9 (prod lead) d) i = Some m ->
     nth 2 m 0 = 1 \/ nth 2 m 0 = -1 ->
     exists out,
       R2E (mk_ndarray (lead ++ [3; 3]%nat) d) = Ok out /\
       shape out = lead ++ [3%nat] /\
       nth_error (chunks 3 (prod lead) (data out)) i
       = Some [Some (arctan2 (nth 1 m 0) (nth 2 m 0));
               Some (if Req_dec_T (nth 2 m 0) 1 then - PI / 2 else PI / 2);
               Some 0]).
Proof.
  split; [|split].
  - intros. rewrite (R2E_rows [] _). cbn [app prod fold_right Nat.mul chunks
      firstn skipn flat_map]. unfold euler_of_matrix. cbn [Nat.mul Nat.add nth].
    destruct (Req_dec_T 1 1); [now rewrite app_nil_r | congruence].
  - intros. rewrite (R2E_rows [] _). cbn [app prod fold_right Nat.mul chunks
      firstn skipn flat_map]. unfold euler_of_matrix. cbn [Nat.mul Nat.add nth].
    destruct (Req_dec_T (-1) 1); [lra|].
    destruct (Req_dec_T (-1) (-1)); [now rewrite app_nil_r | congruence].
  - intros lead d i m Hm Hr.
    eexists. split; [apply R2E_rows|]. split; [reflexivity|].
    cbn [data].
    set (rs := chunks 9 (prod lead) d) in *.
    replace (prod lead) with (List.length rs)
      by (unfold rs; apply chunks_length).
    rewrite (chunks_flat_map euler_of_matrix rs euler_of_matrix_length).
    rewrite nth_error_map, Hm. cbn [option_map]. f_equal.
    unfold euler_of_matrix. cbn [Nat.mul Nat.add].
    destruct (Req_dec_T (nth 2 m 0) 1) as [E1|N1]; [reflexivity|].
    destruct (Req_dec_T (nth 2 m 0) (-1)) as [E2|N2]; [reflexivity|].
    destruct Hr; contradiction.
Qed.

Lemma R2E_gimbal_lock_witness :
  let d := [1; 0; 0; 0; 1; 0; 0; 0; 1;
            0; 0; 1; 0; 1; 0; -1; 0; 0] in
  let m := [0; 0; 1; 0; 1; 0; -1; 0; 0] in
  nth_error (chunks 9 (prod [2%nat]) d) 1 = Some m /\
  (nth 2 m 0 = 1 \/ nth 2 m 0 = -1) /\
  exists out,
    R2E (mk_ndarray ([2%nat] ++ [3; 3]%nat) d) = Ok out /\
    shape out = [2; 3]%nat /\
    nth_error (chunks 3 (prod [2%nat]) (data out)) 1
    = Some [Some (arctan2 (nth 1 m 0) (nth 2 m 0));
            Some (if Req_dec_T (nth 2 m 0) 1 then - PI / 2 else PI / 2);
            Some 0].
Proof.
  intros d m.
  split; [reflexivity|]. split; [left; reflexivity|].
  apply (proj2 (proj2 R2E_gimbal_lock) [2%nat] d 1%nat m);
    [reflexivity | left; reflexivity].
Defined.

(** ** T2Rp and Rp2T *)

Lemma list16 {A : Type} (m : list A) :
  List.length m = 16%nat ->
  exists a0 a1 a2 a3 a4 a5 a6 a7 a8 a9 a10 a11 a12 a13 a14 a15,
    m = [a0; a1; a2; a3; a4; a5; a6; a7; a8; a9; a10; a11; a12; a13; a14; a15].
Proof.
  intros H.
  do 16 (destruct m as [|? m]; [discriminate H|]).
  destruct m; [|discriminate H].
  repeat eexists.
Qed.

Lemma top_left_transform (m : list R) :
  List.length m = 16%nat -> top_left 4 4 m = rotation_of m.
Proof.
  intros H. destruct (list16 m H) as (? & ? & ? & ? & ? & ? & ? & ? & ? & ?
                                        & ? & ? & ? & ? & ? & ? & ->).
  reflexivity.
Qed.

Lemma last_col_transform (m : list R) :
  List.length m = 16%nat -> last_col 4 4 m = position_of m.
Proof.
  intros H. destruct (list16 m H) as (? & ? & ? & ? & ? & ? & ? & ? & ? & ?
                                        & ? & ? & ? & ? & ? & ? & ->).
  reflexivity.
Qed.

Lemma compose_transform (m : list R) :
  List.length m = 16%nat -> homogeneous m ->
  set_last_col (position_of m) (set_top_left (rotation_of m) eye_T) = m.
Proof.
  intros H Hh. destruct (list16 m H) as (? & ? & ? & ? & ? & ? & ? & ? & ? & ?
                                          & ? & ? & ? & ? & ? & ? & ->).
  unfold homogeneous in Hh. cbn [skipn] in Hh.
  injection Hh as -> -> -> ->.
  reflexivity.
Qed.

Lemma flat_map_ext_in {A B : Type} (f g : A -> list B) (l : list A) :
  (forall x, In x l -> f x = g x) -> flat_map f l = flat_map g l.
Proof.
  induction l as [|x t IH]; intros H; simpl; auto.
  rewrite (H x) by (now left). f_equal. apply IH. intros; apply H; now right.
Qed.

Lemma prod_app (l1 l2 : list nat) : prod (l1 ++ l2) = (prod l1 * prod l2)%nat.
Proof.
  unfold prod. induction l1 as [|x t IH]; simpl.
  - lia.
  - rewrite IH. lia.
Qed.

Lemma T2Rp_transform (lead : list nat) (d : list R) :
  List.length d = (prod lead * 16)%nat ->
  T2Rp (mk_ndarray (lead ++ [4; 4]%nat) d)
  = Ok (mk_ndarray (lead ++ [3; 3]%nat)
          (flat_map rotation_of (chunks 16 (prod lead) d)),
        mk_ndarray (lead ++ [3%nat])
          (flat_map position_of (chunks 16 (prod lead) d))).
Proof.
  intros H. unfold T2Rp. cbn [shape data].
  rewrite rev_app_distr. cbn [rev app]. rewrite rev_involutive.
  change (3 <? 4)%nat with true. change (4 * 4)%nat with 16%nat.
  cbv iota zeta. change (Nat.min 3 4) with 3%nat.
  f_equal. f_equal; f_equal; apply flat_map_ext_in; intros m Hm;
    [apply top_left_transform | apply last_col_transform];
    eapply chunks_In_length; eauto.
Qed.

Lemma Rp2T_transform (lead : list nat) (d : list R) :
  List.length d = (prod lead * 16)%nat ->
  Forall homogeneous (chunks 16 (prod lead) d) ->
  Rp2T (mk_ndarray (lead ++ [3; 3]%nat)
          (flat_map rotation_of (chunks 16 (prod lead) d)))
       (mk_ndarray (lead ++ [3%nat])
          (flat_map position_of (chunks 16 (prod lead) d)))
  = Ok (mk_ndarray (lead ++ [4; 4]%nat) d).
Proof.
  intros H Hh. unfold Rp2T, reshape_items, size, ndim. cbn [shape data].
  set (ms := chunks 16 (prod lead) d) in *.
  assert (Hn : List.length ms = prod lead) by apply chunks_length.
  assert (Hin : (if (2 <? List.length (lead ++ [3; 3]%nat))%nat
                 then removelast (removelast (lead ++ [3; 3]%nat))
                 else removelast (lead ++ [3%nat])) = lead).
  { destruct (2 <? _)%nat.
    - change [3; 3]%nat with ([3] ++ [3])%nat.
      rewrite app_assoc, !removelast_last. reflexivity.
    - apply removelast_last. }
  rewrite Hin.
  rewrite !prod_app.
  change (prod [3; 3]%nat) with 9%nat. change (prod [3%nat]) with 3%nat.
  rewrite !Nat.Div0.mod_mul, !Nat.div_mul by lia. cbn [Nat.eqb].
  rewrite <- Hn.
  rewrite (chunks_flat_map rotation_of ms (k := 9)) by reflexivity.
  rewrite (chunks_flat_map position_of ms (k := 3)) by reflexivity.
  unfold broadcast_items. rewrite !length_map, Nat.eqb_refl.
  rewrite (repeat_as_map (repeat 0 16) ms).
  repeat (rewrite map2_map || rewrite map_map).
  f_equal. f_equal.
  rewrite <- (concat_chunks 16 (prod lead) d H). fold ms. f_equal.
  rewrite <- (map_id ms) at 2.
  apply map_ext_in. intros m Hm.
  apply compose_transform.
  - eapply chunks_In_length; eauto.
  - rewrite Forall_forall in Hh. now apply Hh.
Qed.

(** C5: on a transform (or a batch of transforms) whose bottom rows are
    (0, 0, 0, 1), T2Rp returns the blocks T[..., :3, :3] and T[..., :3, 3],
    and Rp2T applied to these two gives back T exactly. *)
Theorem T2Rp_Rp2T_round_trip (lead : list nat) (d : list R) :
  List.length d = (prod lead * 16)%nat ->
  Forall homogeneous (chunks 16 (prod lead) d) ->
  exists Rm p,
    T2Rp (mk_ndarray (lead ++ [4; 4]%nat) d) = Ok (Rm, p) /\
    shape Rm = lead ++ [3; 3]%nat /\
    data Rm = flat_map rotation_of (chunks 16 (prod lead) d) /\
    shape p = lead ++ [3%nat] /\
    data p = flat_map position_of (chunks 16 (prod lead) d) /\
    Rp2T Rm p = Ok (mk_ndarray (lead ++ [4; 4]%nat) d).
Proof.
  intros H Hh. eexists. eexists.
  split; [apply T2Rp_transform; exact H|].
  repeat (split; [reflexivity|]).
  now apply Rp2T_transform.
Qed.

Lemma T2Rp_Rp2T_round_trip_witness :
  let d := [1; 0; 0; 5;
            0; 1; 0; 6;
            0; 0; 1; 7;
            0; 0; 0; 1] in
  List.length d = (prod [] * 16)%nat /\
  Forall homogeneous (chunks 16 (prod []) d) /\
  exists Rm p,
    T2Rp (mk_ndarray [4; 4]%nat d) = Ok (Rm, p) /\
    data Rm = [1; 0; 0; 0; 1; 0; 0; 0; 1] /\
    data p = [5; 6; 7] /\
    Rp2T Rm p = Ok (mk_ndarray [4; 4]%nat d).
Proof.
  intros d.
  assert (L : List.length d = (prod [] * 16)%nat) by reflexivity.
  assert (Hh : Forall homogeneous (chunks 16 (prod []) d))
    by (repeat constructor).
  split; [exact L|]. split; [exact Hh|].
  destruct (@T2Rp_Rp2T_round_trip [] d L Hh)
    as (Rm & p & E & _ & ER & _ & Ep & ET).
  exists Rm, p. split; [exact E|]. split; [exact ER|]. split; [exact Ep|].
  exact ET.
Defined.

End PureProps.

Module StoreExtra.

Import Store StoreProps.

(** ** A lane on which the function raises *)

Section Raises.

Variable fn : ndarray -> M ndarray.
Variable g : list R -> result (list nat * list R).
Hypothesis fn_g : implements fn g.

(** Filling stops at the first lane on which [g] raises. *)
Lemma fill_raise (s0 : store) (buff : ndarray) (sh : list nat) (e : exn) :
  (List.length (heap s0) <= base buff)%nat ->
  forall (ls : list ndarray) (i : nat) (s : store),
    frame s0 s ->
    Forall (fun v => is_vector v /\ (base v < List.length (heap s0))%nat) ls ->
    Forall (fun v => (exists d, g (elems s0 v) = Ok (sh, d)) \/
                     g (elems s0 v) = Raise e) ls ->
    Exists (fun v => g (elems s0 v) = Raise e) ls ->
    exists s', fill fn buff sh i ls s = (Raise e, s').
Proof.
  intros Hb ls. induction ls as [|v ls IH]; intros i s F Hls Hall Hex.
  - inversion Hex.
  - inversion Hls as [|? ? [Hv Hvb] Hls']; subst.
    inversion Hall as [|? ? Hhd Hall']; subst.
    cbn [fill].
    destruct Hhd as [[d Hd]|Hr].
    + assert (Hg : g (elems s v) = Ok (sh, d))
        by (rewrite (frame_elems v F Hvb); exact Hd).
      assert (Hex' : Exists (fun v => g (elems s0 v) = Raise e) ls)
        by (inversion Hex; [congruence | assumption]).
      destruct (implements_ok fn_g s Hv Hg)
        as (a & s1 & E1 & F1 & Sa & Ea & L).
      unfold bind at 1. rewrite E1. unfold load at 1. unfold bind at 1.
      rewrite Sa, Ea, (broadcast_same sh d L).
      unfold bind at 1.
      set (s2 := snd (assign (slot buff sh i) d s1)).
      change (assign (slot buff sh i) d s1) with (Ok tt, s2).
      cbv beta iota.
      apply IH; auto.
      unfold s2. apply frame_assign; [eapply frame_trans; eauto | exact Hb].
    + assert (Hg : g (elems s v) = Raise e)
        by (rewrite (frame_elems v F Hvb); exact Hr).
      destruct (implements_raise fn_g s Hv Hg) as (s1 & E1 & _).
      exists s1. unfold bind at 1. now rewrite E1.
Qed.

Lemma apply_along_axis_2d_raise (arr : ndarray) (n m : nat) (s : store)
    (sh : list nat) (e : exn) :
  shape arr = [n; m] -> List.length (idx arr) = (n * m)%nat ->
  (base arr < List.length (heap s))%nat ->
  Forall (fun row => (exists d, g row = Ok (sh, d)) \/ g row = Raise e)
         (chunks m n (elems s arr)) ->
  Exists (fun row => g row = Raise e) (chunks m n (elems s arr)) ->
  exists s', apply_along_axis fn arr s = (Raise e, s').
Proof.
  intros Hs Hl Hb Hall Hex.
  rewrite <- (lanes_rows s arr Hs Hl) in Hall, Hex.
  rewrite Forall_map in Hall. rewrite Exists_map in Hex.
  pose proof (lanes_vector arr) as Hvec.
  pose proof (lanes_base arr) as Hbase.
  unfold apply_along_axis. rewrite Hs.
  destruct (lanes arr) as [|v0 vs]; [inversion Hex|].
  inversion Hvec as [|? ? Hv0 Hvs]; subst.
  inversion Hbase as [|? ? Hb0 Hbs]; subst.
  inversion Hall as [|? ? Hhd Hall']; subst.
  destruct Hhd as [[d0 Hd0]|Hr].
  - destruct (implements_ok fn_g s Hv0 Hd0)
      as (a & s1 & E1 & F1 & Sa & Ea & L).
    assert (Hex' : Exists (fun v => g (elems s v) = Raise e) vs)
      by (inversion Hex; [congruence | assumption]).
    subst sh.
    set (z := repeat 0%R (prod (([n] ++ []) ++ shape a))).
    set (buff := mk_ndarray (List.length (heap s1)) (seq 0 (List.length z))
                            (([n] ++ []) ++ shape a)).
    set (s2 := mk_store (heap s1 ++ [z]) (warned s1)).
    set (s3 := snd (assign (slot buff (shape a) 0) (elems s1 a) s2)).
    assert (F2 : frame s s2) by (apply frame_push; exact F1).
    assert (Hbb : (List.length (heap s) <= base buff)%nat)
      by (destruct F1; simpl; lia).
    assert (F3 : frame s s3) by (apply frame_assign; assumption).
    assert (Hls : Forall (fun v => is_vector v /\
                                   (base v < List.length (heap s))%nat) vs).
    { apply Forall_forall. intros v Hv.
      rewrite Forall_forall in Hvs, Hbs.
      split; [now apply Hvs | rewrite (Hbs v Hv); exact Hb]. }
    destruct (@fill_raise s buff (shape a) e Hbb vs 1%nat s3 F3 Hls Hall' Hex')
      as (s' & E).
    exists s'.
    erewrite bind_ok; [|exact E1]. cbv beta.
    erewrite bind_ok; [|reflexivity]. cbv beta zeta.
    erewrite bind_ok; [|reflexivity]. cbv beta.
    erewrite bind_ok; [|reflexivity]. cbv beta.
    erewrite bind_raise; [|exact E]. reflexivity.
  - destruct (implements_raise fn_g s Hv0 Hr) as (s1 & E1 & _).
    exists s1. erewrite bind_raise; [|exact E1]. reflexivity.
Qed.

(** The helper on a 2-D array one of whose rows makes [g] raise. *)
Lemma helper_2d_raise (input : ndarray) (n m : nat) (s : store)
    (sh : list nat) (e : exn) :
  shape input = [n; m] -> List.length (idx input) = (n * m)%nat ->
  (base input < List.length (heap s))%nat ->
  Forall (fun row => (exists d, g row = Ok (sh, d)) \/ g row = Raise e)
         (chunks m n (elems s input)) ->
  Exists (fun row => g row = Raise e) (chunks m n (elems s input)) ->
  exists s', _apply_fn_agnostic_to_vec_mat input fn s = (Raise e, s').
Proof.
  intros Hs Hl Hb Hall Hex.
  destruct (apply_along_axis_2d_raise input s Hs Hl Hb Hall Hex) as (s' & E).
  exists s'.
  unfold _apply_fn_agnostic_to_vec_mat, ndim. rewrite Hs. simpl Nat.eqb.
  cbv iota.
  erewrite bind_ok; [|reflexivity]. cbv beta.
  erewrite bind_raise; [|exact E]. reflexivity.
Qed.

End Raises.

(** ** The lanes of an array of two or more dimensions *)

Lemma lanes_first (arr : ndarray) (n m : nat) (rest : list nat) :
  shape arr = n :: m :: rest -> (0 < n)%nat -> (0 < prod rest)%nat ->
  exists v0 vs, lanes arr = v0 :: vs /\ List.length (idx v0) = m.
Proof.
  intros Hs Hn Hr. unfold lanes. rewrite Hs.
  destruct n as [|n]; [lia|].
  destruct (prod rest) as [|r]; [lia|].
  cbn [seq flat_map map app].
  eexists. eexists. split; [reflexivity|].
  cbn [idx]. now rewrite length_map, length_seq.
Qed.

Section FirstLane.

Variable fn : ndarray -> M ndarray.
Variable g : list R -> result (list nat * list R).
Hypothesis fn_g : implements fn g.

(** The helper on an array of two or more dimensions, when [g] raises on
    every vector of the length of axis 1. *)
Lemma helper_nd_first_raise (input : ndarray) (n m : nat) (rest : list nat)
    (s : store) (e : exn) :
  shape input = n :: m :: rest -> (0 < n)%nat -> (0 < prod rest)%nat ->
  (forall d, List.length d = m -> g d = Raise e) ->
  exists s', _apply_fn_agnostic_to_vec_mat input fn s = (Raise e, s').
Proof.
  intros Hs Hn Hr Hg.
  destruct (lanes_first input Hs Hn Hr) as (v0 & vs & Hl & Hm).
  pose proof (lanes_vector input) as Hvec. rewrite Hl in Hvec.
  inversion Hvec as [|? ? Hv0 _]; subst.
  destruct (implements_raise fn_g s (e := e) Hv0) as (s' & E & _).
  { apply Hg. unfold elems. now rewrite length_map. }
  exists s'.
  unfold _apply_fn_agnostic_to_vec_mat, ndim. rewrite Hs.
  cbn [List.length Nat.eqb]. cbv iota.
  erewrite bind_ok; [|reflexivity]. cbv beta.
  erewrite bind_raise; [reflexivity|].
  unfold apply_along_axis. rewrite Hs, Hl.
  erewrite bind_raise; [reflexivity | exact E].
Qed.

End FirstLane.

(** ** The buffer of the result *)

Section Fresh.

Variable fn : ndarray -> M ndarray.
Hypothesis fn_frame : forall s v, is_vector v -> frame s (snd (fn v s)).

Lemma apply_along_axis_fresh (arr : ndarray) (s s' : store) (out : ndarray) :
  apply_along_axis fn arr s = (Ok out, s') ->
  (List.length (heap s) <= base out)%nat.
Proof.
  unfold apply_along_axis.
  destruct (shape arr) as [|n [|m rest]]; try (intros H; discriminate H).
  pose proof (lanes_vector arr) as Hl.
  destruct (lanes arr) as [|v0 vs]; try (intros H; discriminate H).
  inversion Hl as [|? ? Hv0 Hvs]; subst.
  unfold bind at 1.
  pose proof (fn_frame s Hv0) as F1.
  destruct (fn v0 s) as [[res|e] s1]; simpl in F1;
    [|intros H; discriminate H].
  unfold bind at 1. unfold load at 1. cbv zeta.
  unfold bind at 1.
  unfold zeros, fresh, bind at 1, alloc, ret.
  unfold bind at 1.
  destruct (assign _ _ _) as [[[]|e] s3]; [|intros H; discriminate H].
  unfold bind at 1.
  destruct (fill _ _ _ _ _ _) as [[[]|e] s4]; [|intros H; discriminate H].
  intros [= <- <-]. cbn [base]. destruct F1; lia.
Qed.

Lemma helper_fresh (input : ndarray) (s s' : store) (out : ndarray) :
  _apply_fn_agnostic_to_vec_mat input fn s = (Ok out, s') ->
  (List.length (heap s) <= base out)%nat.
Proof.
  unfold _apply_fn_agnostic_to_vec_mat. unfold bind at 1.
  destruct (ndim input =? 1)%nat.
  - rewrite np_array1_run. unfold bind at 1.
    destruct (apply_along_axis fn _ _) as [[o|e] s2] eqn:E;
      [|intros H; discriminate H].
    apply apply_along_axis_fresh in E.
    unfold first_item.
    destruct (shape o) as [|[|k] sh]; try (intros H; discriminate H).
    intros [= <- <-]. cbn [base].
    unfold push in E; cbn [heap] in E. rewrite length_app in E. simpl in E. lia.
  - unfold ret at 1. unfold bind at 1.
    destruct (apply_along_axis fn input s) as [[o|e] s2] eqn:E;
      [|intros H; discriminate H].
    intros [= <- <-]. eapply apply_along_axis_fresh; eauto.
Qed.

End Fresh.

(** ** Q2Q on batches and on vectors of other lengths *)

Lemma chunks_concat {A : Type} (k : nat) (ds : list (list A)) :
  Forall (fun c => List.length c = k) ds ->
  chunks k (List.length ds) (concat ds) = ds.
Proof.
  induction 1 as [|c ds Hc _ IH]; [reflexivity|].
  cbn [concat List.length]. rewrite chunks_app by exact Hc. now rewrite IH.
Qed.

Lemma Forall2_map_r {A B : Type} (P : A -> B -> Prop) (f : A -> B)
    (l : list A) :
  Forall (fun x => P x (f x)) l -> Forall2 P l (map f l).
Proof. induction 1; simpl; constructor; auto. Qed.

Lemma sum_sq_nonneg (d : list R) : (0 <= sum_sq d)%R.
Proof. unfold sum_sq. induction d as [|x t IH]; simpl; [lra | nra]. Qed.

Lemma sum_sq_scaled (k : R) (d : list R) :
  k <> 0%R -> sum_sq (map (fun v => (v / k)%R) d) = (sum_sq d / (k * k))%R.
Proof.
  intros Hk. unfold sum_sq. induction d as [|x t IH]; simpl.
  - field. exact Hk.
  - rewrite IH. field. exact Hk.
Qed.

Lemma normalized_unit (EPSILON : R) (d : list R) :
  (0 < EPSILON)%R -> ~ (sqrt (sum_sq d) < EPSILON)%R ->
  sqrt (sum_sq (map (fun v => (v / sqrt (sum_sq d))%R) d)) = 1%R.
Proof.
  intros He Hn.
  assert (Hk : (0 < sqrt (sum_sq d))%R) by lra.
  rewrite sum_sq_scaled by lra.
  rewrite sqrt_sqrt by apply sum_sq_nonneg.
  assert (sum_sq d <> 0)%R by (intros Z; rewrite Z, sqrt_0 in Hk; lra).
  replace (sum_sq d / sum_sq d)%R with 1%R by (field; assumption).
  apply sqrt_1.
Qed.

Lemma q2q_value_normalize (EPSILON : R) (wxyz_in : bool) (d : list R) :
  ~ (sqrt (sum_sq d) < EPSILON)%R ->
  q2q_value EPSILON ["normalize"%string] wxyz_in d
  = Ok ([List.length d], map (fun v => (v / sqrt (sum_sq d))%R) d).
Proof.
  intros H. unfold q2q_value.
  cbn [contains existsb String.eqb Ascii.eqb Bool.eqb orb].
  destruct (Rlt_dec (sqrt (sum_sq d)) EPSILON); [contradiction|].
  now rewrite length_map.
Qed.

Lemma elems_length (s : store) (a : ndarray) :
  List.length (elems s a) = List.length (idx a).
Proof. apply length_map. Qed.

(** X14: Q2Q with 'normalize' on a batch of n >= 1 vectors, each of norm at
    least EPSILON > 0, returns a batch of the same shape in which every
    vector is the input vector divided by its norm, and has norm 1. *)
Theorem Q2Q_batch_unit_norm (EPSILON : R) (s : store) (Q : ndarray)
    (n m : nat) (wxyz_in : bool) :
  (0 < EPSILON)%R ->
  shape Q = [n; m] -> List.length (idx Q) = (n * m)%nat ->
  (base Q < List.length (heap s))%nat -> (0 < n)%nat ->
  Forall (fun row => ~ (sqrt (sum_sq row) < EPSILON)%R)
         (chunks m n (elems s Q)) ->
  exists out s',
    Q2Q EPSILON Q ["normalize"%string] wxyz_in s = (Ok out, s') /\
    shape out = [n; m] /\
    chunks m n (elems s' out)
    = map (fun row => map (fun v => (v / sqrt (sum_sq row))%R) row)
          (chunks m n (elems s Q)) /\
    Forall (fun row => sqrt (sum_sq row) = 1%R) (chunks m n (elems s' out)).
Proof.
  intros He Hs Hl Hb Hn Hrows.
  set (rows := chunks m n (elems s Q)) in *.
  set (f := fun row : list R => map (fun v => (v / sqrt (sum_sq row))%R) row).
  assert (Hlen : forall row, In row rows -> List.length row = m).
  { intros row Hin. eapply chunks_In_length; [|exact Hin].
    now rewrite elems_length. }
  assert (Hds : Forall2 (fun row d =>
                  q2q_value EPSILON ["normalize"%string] wxyz_in row
                  = Ok ([m], d)) rows (map f rows)).
  { apply Forall2_map_r. apply Forall_forall. intros row Hin.
    rewrite Forall_forall in Hrows.
    rewrite q2q_value_normalize by (now apply Hrows).
    now rewrite (Hlen row Hin). }
  destruct (helper_2d (q2q_implements EPSILON ["normalize"%string] wxyz_in)
              Q s Hs Hl Hb Hn Hds)
    as (out & s' & E & _ & So & Eo).
  assert (Hc : chunks m n (elems s' out) = map f rows).
  { rewrite Eo.
    replace n with (List.length (map f rows))
      by (rewrite length_map; apply chunks_length).
    apply chunks_concat. apply Forall_map, Forall_forall.
    intros row Hin. unfold f. rewrite length_map. now apply Hlen. }
  exists out, s'. split; [exact E|]. split; [exact So|]. split; [exact Hc|].
  rewrite Hc. apply Forall_map.
  eapply Forall_impl; [|exact Hrows].
  intros row Hrow. now apply normalized_unit with (EPSILON := EPSILON).
Qed.

Lemma Q2Q_batch_unit_norm_witness :
  exists out s',
    Q2Q (1 / 1000) (whole 0 8 [2; 4]%nat) ["normalize"%string] true
        (store_of [2; 0; 0; 0; 0; 0; 3; 0]%R) = (Ok out, s') /\
    shape out = [2; 4]%nat /\
    Forall (fun row => sqrt (sum_sq row) = 1%R) (chunks 4 2 (elems s' out)).
Proof.
  assert (N2 : sqrt (sum_sq [2; 0; 0; 0]%R) = 2%R).
  { unfold sum_sq; simpl.
    replace (2 * 2 + (0 * 0 + (0 * 0 + (0 * 0 + 0))))%R with (2 * 2)%R by ring.
    apply sqrt_square. lra. }
  assert (N3 : sqrt (sum_sq [0; 0; 3; 0]%R) = 3%R).
  { unfold sum_sq; simpl.
    replace (0 * 0 + (0 * 0 + (3 * 3 + (0 * 0 + 0))))%R with (3 * 3)%R by ring.
    apply sqrt_square. lra. }
  destruct (@Q2Q_batch_unit_norm (1 / 1000) (store_of [2; 0; 0; 0; 0; 0; 3; 0]%R)
              (whole 0 8 [2; 4]%nat) 2 4 true)
    as (out & s' & E & So & _ & U);
    try reflexivity; try lra; try (simpl; lia).
  - cbn. repeat constructor; [rewrite N2 | rewrite N3]; lra.
  - exists out, s'. split; [exact E|]. split; [exact So | exact U].
Defined.

Lemma q2q_value_quaternion (EPSILON : R) (op : list string) (wxyz_in : bool)
    (d : list R) :
  List.length d = 4%nat ->
  (contains "normalize" op = true -> ~ (sqrt (sum_sq d) < EPSILON)%R) ->
  exists r, q2q_value EPSILON op wxyz_in d = Ok ([4%nat], r).
Proof.
  intros Hl Hn.
  do 4 (destruct d as [|? d]; [discriminate Hl|]).
  destruct d; [|discriminate Hl].
  unfold q2q_value.
  destruct (contains "normalize" op).
  - destruct (Rlt_dec _ EPSILON) as [Hlt|_]; [now elim Hn|].
    destruct (contains "halfspace" op), wxyz_in;
      cbn [map List.length nth Nat.ltb Nat.leb];
      repeat match goal with
             | |- context [Rlt_dec ?x ?y] => destruct (Rlt_dec x y)
             end;
      destruct (contains "change_order" op); cbn; eauto.
  - destruct (contains "halfspace" op), wxyz_in;
      cbn [map List.length nth Nat.ltb Nat.leb];
      repeat match goal with
             | |- context [Rlt_dec ?x ?y] => destruct (Rlt_dec x y)
             end;
      destruct (contains "change_order" op); cbn; eauto.
Qed.

(** X15: one quaternion of norm below EPSILON makes Q2Q with 'normalize'
    raise the zero-length exception for the whole batch, wherever the
    quaternion stands in the batch and whatever the other operations. *)
Theorem Q2Q_batch_zero_length_raises (EPSILON : R) (s : store) (Q : ndarray)
    (n : nat) (op : list string) (wxyz_in : bool) :
  contains "normalize" op = true ->
  shape Q = [n; 4%nat] -> List.length (idx Q) = (n * 4)%nat ->
  (base Q < List.length (heap s))%nat ->
  Exists (fun row => (sqrt (sum_sq row) < EPSILON)%R)
         (chunks 4 n (elems s Q)) ->
  fst (Q2Q EPSILON Q op wxyz_in s)
  = Raise (Exception "Invalid input with zero length").
Proof.
  intros Hop Hs Hl Hb Hex.
  destruct (@helper_2d_raise (q2q EPSILON op wxyz_in)
              (q2q_value EPSILON op wxyz_in)
              (q2q_implements EPSILON op wxyz_in) Q n 4 s [4%nat]
              (Exception "Invalid input with zero length") Hs Hl Hb)
    as (s' & E).
  - apply Forall_forall. intros row Hin.
    assert (Hlen : List.length row = 4%nat).
    { eapply chunks_In_length; [|exact Hin]. now rewrite elems_length. }
    destruct (Rlt_dec (sqrt (sum_sq row)) EPSILON) as [Hlt|Hge].
    + right. unfold q2q_value. rewrite Hop.
      destruct (Rlt_dec _ EPSILON); [reflexivity | contradiction].
    + left. apply q2q_value_quaternion; auto.
  - eapply Exists_impl; [|exact Hex].
    intros row Hlt. cbv beta in Hlt. unfold q2q_value. rewrite Hop.
    destruct (Rlt_dec _ EPSILON); [reflexivity | contradiction].
  - unfold Q2Q. now rewrite E.
Qed.

Lemma Q2Q_batch_zero_length_raises_witness :
  fst (Q2Q (1 / 1000) (whole 0 8 [2; 4]%nat)
         ["halfspace"; "normalize"]%string true
         (store_of [1; 0; 0; 0; 0; 0; 0; 0]%R))
  = Raise (Exception "Invalid input with zero length").
Proof.
  apply (@Q2Q_batch_zero_length_raises (1 / 1000)
           (store_of [1; 0; 0; 0; 0; 0; 0; 0]%R) (whole 0 8 [2; 4]%nat) 2);
    try reflexivity; try (simpl; lia).
  cbn. apply Exists_cons_tl, Exists_cons_hd.
  unfold sum_sq; simpl.
  replace (0 * 0 + (0 * 0 + (0 * 0 + (0 * 0 + 0))))%R with 0%R by ring.
  rewrite sqrt_0. lra.
Defined.

(** X16: 'change_order' in one direction followed by 'change_order' in the
    other direction gives back the components of the quaternion one started
    from, whichever order one starts with. *)
Theorem Q2Q_reorder_round_trip (EPSILON : R) (s : store) (Q : ndarray)
    (q0 q1 q2 q3 : R) (wxyz_in : bool) :
  shape Q = [4%nat] -> elems s Q = [q0; q1; q2; q3] ->
  exists mid s1 out s2,
    Q2Q EPSILON Q ["change_order"%string] wxyz_in s = (Ok mid, s1) /\
    Q2Q EPSILON mid ["change_order"%string] (negb wxyz_in) s1 = (Ok out, s2) /\
    shape out = [4%nat] /\ elems s2 out = [q0; q1; q2; q3].
Proof.
  intros Hs He.
  pose proof (quaternion_is_vector s Q Hs He) as Hv.
  set (md := if wxyz_in then [q1; q2; q3; q0] else [q3; q0; q1; q2]).
  destruct (@Q2Q_value_ok EPSILON ["change_order"%string] wxyz_in s Q [4%nat]
              md Hv) as (mid & s1 & E1 & _ & S1 & M1).
  { unfold q2q_value, md. rewrite He. now destruct wxyz_in. }
  assert (Hv1 : is_vector mid).
  { unfold md in M1.
    destruct wxyz_in; eapply quaternion_is_vector; eauto. }
  destruct (@Q2Q_value_ok EPSILON ["change_order"%string] (negb wxyz_in) s1
              mid [4%nat] [q0; q1; q2; q3] Hv1)
    as (out & s2 & E2 & _ & S2 & M2).
  { unfold q2q_value. rewrite M1. unfold md. now destruct wxyz_in. }
  exists mid, s1, out, s2. auto.
Qed.

Lemma Q2Q_reorder_round_trip_witness :
  exists mid s1 out s2,
    Q2Q (1 / 1000) (vector0 4) ["change_order"%string] true
        (store_of [1; 2; 3; 4]%R) = (Ok mid, s1) /\
    Q2Q (1 / 1000) mid ["change_order"%string] false s1 = (Ok out, s2) /\
    shape out = [4%nat] /\ elems s2 out = [1; 2; 3; 4]%R.
Proof.
  exact (@Q2Q_reorder_round_trip (1 / 1000) (store_of [1; 2; 3; 4]%R)
           (vector0 4) 1 2 3 4 true eq_refl eq_refl).
Defined.

Lemma sum_sq_4' (a b c d : R) :
  sum_sq [a; b; c; d] = (a * a + b * b + c * c + d * d)%R.
Proof. unfold sum_sq; simpl; ring. Qed.

(** X17: with the three operations asked for, in any order and any number
    of times, Q2Q divides the quaternion by its norm, then negates it when
    its scalar component is negative, then reorders it: the result has
    norm 1 and its scalar component, now at the other end, is not
    negative. *)
Theorem Q2Q_all_operations (EPSILON : R) (s : store) (Q : ndarray)
    (q0 q1 q2 q3 : R) (op : list string) (wxyz_in : bool) :
  contains "normalize" op = true -> contains "halfspace" op = true ->
  contains "change_order" op = true ->
  shape Q = [4%nat] -> elems s Q = [q0; q1; q2; q3] ->
  let k := sqrt (q0 * q0 + q1 * q1 + q2 * q2 + q3 * q3) in
  let w := if wxyz_in then q0 else q3 in
  let u := map (fun v => if Rlt_dec (w / k) 0 then (v / k * -1)%R
                         else (v / k)%R) [q0; q1; q2; q3] in
  (0 < EPSILON)%R -> ~ (k < EPSILON)%R ->
  exists out s',
    Q2Q EPSILON Q op wxyz_in s = (Ok out, s') /\
    shape out = [4%nat] /\
    elems s' out = map (fun i => nth i u 0%R)
                       (if wxyz_in then [1; 2; 3; 0]%nat else [3; 0; 1; 2]%nat) /\
    sqrt (sum_sq (elems s' out)) = 1%R /\
    (0 <= nth (if wxyz_in then 3 else 0)%nat (elems s' out) 0)%R.
Proof.
  intros Hn Hh Hc Hs He k w u Hpos Hge.
  pose proof (quaternion_is_vector s Q Hs He) as Hv.
  assert (Hk : sqrt (sum_sq [q0; q1; q2; q3]) = k)
    by (unfold k; now rewrite sum_sq_4').
  assert (Hk0 : (0 < k)%R) by lra.
  assert (Hkk : (k * k = q0 * q0 + q1 * q1 + q2 * q2 + q3 * q3)%R).
  { unfold k. apply sqrt_sqrt. nra. }
  destruct (@Q2Q_value_ok EPSILON op wxyz_in s Q [4%nat]
              (map (fun i => nth i u 0%R)
                   (if wxyz_in then [1; 2; 3; 0]%nat else [3; 0; 1; 2]%nat)) Hv)
    as (out & s' & E & _ & So & Eo).
  { unfold q2q_value. rewrite Hn, Hh, Hc, He, Hk.
    destruct (Rlt_dec k EPSILON); [contradiction|].
    unfold u, w.
    destruct wxyz_in; cbn [map List.length nth Nat.ltb Nat.leb];
      match goal with |- context [Rlt_dec ?x 0] => destruct (Rlt_dec x 0) end;
      reflexivity. }
  exists out, s'. split; [exact E|]. split; [exact So|]. split; [exact Eo|].
  rewrite Eo. unfold u, w.
  assert (U : forall a b c d : R,
             (a * a + b * b + c * c + d * d = k * k)%R ->
             sqrt (sum_sq [a / k; b / k; c / k; d / k]%R) = 1%R /\
             sqrt (sum_sq [a / k * -1; b / k * -1; c / k * -1; d / k * -1]%R)
             = 1%R).
  { intros a b c d H. rewrite !sum_sq_4'.
    replace (a / k * (a / k) + b / k * (b / k) + c / k * (c / k)
             + d / k * (d / k))%R
      with ((a * a + b * b + c * c + d * d) / (k * k))%R by (field; lra).
    replace (a / k * -1 * (a / k * -1) + b / k * -1 * (b / k * -1)
             + c / k * -1 * (c / k * -1) + d / k * -1 * (d / k * -1))%R
      with ((a * a + b * b + c * c + d * d) / (k * k))%R by (field; lra).
    rewrite H.
    replace (k * k / (k * k))%R with 1%R by (field; lra).
    split; apply sqrt_1. }
  destruct wxyz_in; cbn [map nth];
    match goal with |- context [Rlt_dec ?x 0] => destruct (Rlt_dec x 0) end;
    (split; [apply U; lra | cbn [nth]; lra]).
Qed.

Lemma Q2Q_all_operations_witness :
  exists out s',
    Q2Q (1 / 1000) (vector0 4)
        ["change_order"; "halfspace"; "normalize"]%string true
        (store_of [-2; 0; 0; 0]%R) = (Ok out, s') /\
    shape out = [4%nat] /\
    sqrt (sum_sq (elems s' out)) = 1%R /\
    (0 <= nth 3 (elems s' out) 0)%R.
Proof.
  assert (K : sqrt (-2 * -2 + 0 * 0 + 0 * 0 + 0 * 0) = 2%R).
  { replace (-2 * -2 + 0 * 0 + 0 * 0 + 0 * 0)%R with (2 * 2)%R by ring.
    apply sqrt_square. lra. }
  destruct (@Q2Q_all_operations (1 / 1000) (store_of [-2; 0; 0; 0]%R)
              (vector0 4) (-2) 0 0 0
              ["change_order"; "halfspace"; "normalize"]%string true
              eq_refl eq_refl eq_refl eq_refl eq_refl)
    as (out & s' & E & So & _ & U & W).
  - lra.
  - rewrite K. lra.
  - exists out, s'. split; [exact E|]. split; [exact So|].
    split; [exact U | exact W].
Defined.

(** X18: the array Q2Q returns lies in a buffer created by the call: it
    shares no memory with its argument, nor with any array that exists
    before the call, also when no operation is asked for. *)
Theorem Q2Q_result_is_fresh (EPSILON : R) (s s' : store) (Q out : ndarray)
    (op : list string) (wxyz_in : bool) :
  Q2Q EPSILON Q op wxyz_in s = (Ok out, s') ->
  (List.length (heap s) <= base out)%nat /\
  ((base Q < List.length (heap s))%nat -> base out <> base Q).
Proof.
  intros E. unfold Q2Q in E.
  apply helper_fresh in E.
  - split; [exact E | lia].
  - intros s0 v Hv. now apply q2q_frame.
Qed.

Lemma Q2Q_result_is_fresh_witness :
  exists out s',
    Q2Q (1 / 1000) (vector0 4) [] true (store_of [1; 2; 3; 4]%R)
    = (Ok out, s') /\
    elems s' out = [1; 2; 3; 4]%R /\
    base out <> base (vector0 4).
Proof.
  destruct (@Q2Q_value_ok (1 / 1000) [] true (store_of [1; 2; 3; 4]%R)
              (vector0 4) [4%nat] [1; 2; 3; 4]%R eq_refl eq_refl)
    as (out & s' & E & _ & _ & Eo).
  exists out, s'. split; [exact E|]. split; [exact Eo|].
  apply (proj2 (@Q2Q_result_is_fresh _ _ _ _ _ _ _ E)). simpl. lia.
Defined.

Lemma q2q_value_short (EPSILON : R) (op : list string) (wxyz_in : bool)
    (d : list R) :
  contains "change_order" op = true -> contains "normalize" op = false ->
  (List.length d < 4)%nat ->
  q2q_value EPSILON op wxyz_in d = Raise IndexError.
Proof.
  intros Hc Hn Hl. unfold q2q_value. rewrite Hc, Hn.
  destruct d as [|a [|b [|c [|x t]]]]; simpl in Hl; try lia;
    destruct (contains "halfspace" op), wxyz_in;
    cbn [map List.length nth Nat.ltb Nat.leb forallb andb];
    repeat match goal with
           | |- context [Rlt_dec ?x ?y] => destruct (Rlt_dec x y)
           end;
    reflexivity.
Qed.

(** X19: Q2Q reads the quaternions along axis 0 of a 1-D array and along
    axis 1 of any array of more dimensions, not along the last axis: when
    that axis has fewer than 4 elements, 'change_order' (without
    'normalize') raises IndexError, also on an array of shape (n, m, 4). *)
Theorem Q2Q_short_axis_raises (EPSILON : R) (s : store) (Q : ndarray)
    (op : list string) (wxyz_in : bool) (m : nat) :
  contains "change_order" op = true -> contains "normalize" op = false ->
  (m < 4)%nat ->
  (shape Q = [m] /\ List.length (idx Q) = m) \/
  (exists n rest, shape Q = n :: m :: rest /\ (0 < n)%nat /\
                  (0 < prod rest)%nat) ->
  fst (Q2Q EPSILON Q op wxyz_in s) = Raise IndexError.
Proof.
  intros Hc Hn Hm [[Hs Hl]|(n & rest & Hs & Hn0 & Hr)].
  - assert (Hv : is_vector Q) by (red; now rewrite Hs, Hl).
    destruct (@Q2Q_value_raise EPSILON op wxyz_in s Q IndexError Hv)
      as (s' & E & _).
    + apply q2q_value_short; auto. rewrite elems_length. lia.
    + now rewrite E.
  - destruct (@helper_nd_first_raise (q2q EPSILON op wxyz_in)
                (q2q_value EPSILON op wxyz_in)
                (q2q_implements EPSILON op wxyz_in) Q n m rest s IndexError
                Hs Hn0 Hr) as (s' & E).
    + intros d Hd. apply q2q_value_short; auto. lia.
    + unfold Q2Q. now rewrite E.
Qed.

Lemma Q2Q_short_axis_raises_witness :
  fst (Q2Q (1 / 1000) (whole 0 24 [2; 3; 4]%nat) ["change_order"%string] true
         (store_of (repeat 1%R 24)))
  = Raise IndexError.
Proof.
  apply (@Q2Q_short_axis_raises (1 / 1000) (store_of (repeat 1%R 24))
           (whole 0 24 [2; 3; 4]%nat) ["change_order"%string] true 3);
    try reflexivity; try lia.
  right. exists 2%nat, [4%nat]. split; [reflexivity|]. simpl. lia.
Defined.

End StoreExtra.

Module PureExtra.

Import Pure PureProps.

Local Open Scope R_scope.

(** ** Angles of points of the unit circle *)

Lemma tan_shift_PI (x : R) : tan (x + PI) = tan x.
Proof.
  unfold tan. rewrite neg_sin, neg_cos.
  destruct (Req_dec (cos x) 0) as [E|N].
  - rewrite E. unfold Rdiv. rewrite Ropp_0, Rinv_0. ring.
  - field. exact N.
Qed.

Ltac rw N H := first [rewrite N in H | rewrite <- N in H].

Lemma cos_plus_2PI (x : R) : cos (x + 2 * PI) = cos x.
Proof.
  replace (x + 2 * PI) with (x + PI + PI) by ring.
  rewrite !neg_cos. ring.
Qed.

Lemma arctan2_sin_cos (t : R) :
  - PI < t <= PI -> arctan2 (sin t) (cos t) = t.
Proof.
  intros [Hlo Hhi]. pose proof PI_RGT_0 as Hpi.
  unfold arctan2.
  destruct (Rlt_dec 0 (cos t)) as [Hc|Hc].
  - (* -pi/2 < t < pi/2 *)
    assert (- (PI / 2) < t < PI / 2).
    { split.
      - destruct (Rlt_dec (- (PI / 2)) t) as [|N]; auto.
        exfalso. apply Rnot_lt_le in N.
        destruct N as [N|N].
        + pose proof (cos_lt_0 (t + 2 * PI)) as C.
          rewrite cos_plus_2PI in C. lra.
        + rw N Hc; rewrite cos_neg, cos_PI2 in Hc. lra.
      - destruct (Rlt_dec t (PI / 2)) as [|N]; auto.
        exfalso. apply Rnot_lt_le in N.
        destruct N as [N|N].
        + pose proof (cos_lt_0 t). lra.
        + rw N Hc; rewrite cos_PI2 in Hc. lra. }
    now apply atan_tan.
  - destruct (Rlt_dec (cos t) 0) as [Hn|Hn].
    + destruct (Rle_dec 0 (sin t)) as [Hs|Hs].
      * (* pi/2 < t <= pi *)
        assert (PI / 2 < t).
        { destruct (Rlt_dec (PI / 2) t) as [|N]; auto.
          exfalso. apply Rnot_lt_le in N.
          destruct (Rlt_dec (- (PI / 2)) t) as [G|G].
          - destruct N as [N|N].
            + pose proof (cos_gt_0 t). lra.
            + rw N Hn; rewrite cos_PI2 in Hn. lra.
          - apply Rnot_lt_le in G.
            destruct (Req_dec t 0).
            + subst. rewrite cos_0 in Hn. lra.
            + pose proof (sin_lt_0_var t). lra. }
        replace (sin t / cos t) with (tan ((t - PI) + PI))
          by (unfold tan; now replace (t - PI + PI) with t by ring).
        rewrite tan_shift_PI, atan_tan by lra. ring.
      * (* -pi < t < -pi/2 *)
        assert (t < - (PI / 2)).
        { destruct (Rlt_dec t (- (PI / 2))) as [|N]; auto.
          exfalso. apply Rnot_lt_le in N.
          destruct (Rlt_dec t (PI / 2)) as [G|G].
          - destruct N as [N|N].
            + pose proof (cos_gt_0 t). lra.
            + rw N Hn; rewrite cos_neg, cos_PI2 in Hn. lra.
          - apply Rnot_lt_le in G.
            destruct Hhi as [Hhi|Hhi].
            + pose proof (sin_gt_0 t). lra.
            + subst. rewrite sin_PI in Hs. lra. }
        replace (sin t / cos t) with (tan ((t + PI)))
          by (rewrite tan_shift_PI; reflexivity).
        rewrite atan_tan by lra. ring.
    + assert (Hz : cos t = 0) by lra.
      destruct (Rlt_dec 0 (sin t)) as [Hs|Hs].
      * destruct (Req_dec t (PI / 2)) as [|N]; auto.
        exfalso.
        destruct (Rlt_dec t (PI / 2)).
        -- destruct (Rlt_dec (- (PI / 2)) t).
           ++ pose proof (cos_gt_0 t). lra.
           ++ destruct (Req_dec t 0); [subst; rewrite cos_0 in Hz; lra|].
              pose proof (sin_lt_0_var t). lra.
        -- pose proof (cos_lt_0 t). lra.
      * destruct (Rlt_dec (sin t) 0) as [Hs'|Hs'].
        -- destruct (Req_dec t (- (PI / 2))) as [E|N]; [rewrite E; field|].
           exfalso.
           destruct (Rlt_dec t (- (PI / 2))).
           ++ pose proof (cos_lt_0 (t + 2 * PI)) as C.
              rewrite cos_plus_2PI in C. lra.
           ++ destruct (Rlt_dec t (PI / 2)).
              ** pose proof (cos_gt_0 t). lra.
              ** destruct Hhi as [Hhi|Hhi].
                 --- pose proof (sin_gt_0 t). lra.
                 --- subst. rewrite sin_PI in Hs'. lra.
        -- exfalso. assert (sin t = 0) by lra.
           pose proof (sin2_cos2 t) as S. unfold Rsqr in S. nra.
Qed.

Lemma arctan2_neg_sin_cos (t : R) :
  - PI <= t < PI -> arctan2 (- sin t) (cos t) = - t.
Proof.
  intros H. rewrite <- sin_neg, <- (cos_neg t).
  apply arctan2_sin_cos. lra.
Qed.

Lemma PI_gt_3' : 3 < PI.
Proof. pose proof PI2_3_2. lra. Qed.

(** ** Angle units *)

(** X1: converting radians to degrees and back, or degrees to radians and
    back, gives the array one started from, shape and elements. *)
Theorem rad2deg_deg2rad_round_trip (a : ndarray R) :
  deg2rad (rad2deg a) = a /\ rad2deg (deg2rad a) = a.
Proof.
  pose proof PI_RGT_0 as Hpi.
  destruct a as [sh d]. unfold deg2rad, rad2deg. cbn [shape data].
  rewrite !map_map.
  split; f_equal; rewrite <- (map_id d) at 2; apply map_ext; intros x;
    field; lra.
Qed.

(** ** Rotations about one axis *)

Lemma Ax2R_data (t : R) :
  data (Ax2R t) = [1; 0; 0; 0; cos t; - sin t; 0; sin t; cos t].
Proof. reflexivity. Qed.

Lemma Ay2R_data (t : R) :
  data (Ay2R t) = [cos t; 0; sin t; 0; 1; 0; - sin t; 0; cos t].
Proof. reflexivity. Qed.

Lemma Az2R_data (t : R) :
  data (Az2R t) = [cos t; - sin t; 0; sin t; cos t; 0; 0; 0; 1].
Proof. reflexivity. Qed.

Lemma sin2_cos2' (t : R) : sin t * sin t + cos t * cos t = 1.
Proof. pose proof (sin2_cos2 t) as H. unfold Rsqr in H. exact H. Qed.

Tactic Notation "each_entry" tactic(tac) :=
  repeat (apply (f_equal2 (@cons R)); [tac|]); reflexivity.

Ltac entries :=
  unfold matmul3, transpose3, det3, entry;
  cbn [data eye_R map seq nth Nat.div Nat.modulo Nat.divmod fst snd
       Nat.mul Nat.add Nat.sub].

(** X2: the matrices built by Ax2R, Ay2R and Az2R have shape (3, 3) and are
    rotation matrices: orthonormal, of determinant 1. *)
Theorem axis_builders_are_rotations (theta : R) :
  (shape (Ax2R theta) = [3; 3]%nat /\ is_rotation (data (Ax2R theta))) /\
  (shape (Ay2R theta) = [3; 3]%nat /\ is_rotation (data (Ay2R theta))) /\
  (shape (Az2R theta) = [3; 3]%nat /\ is_rotation (data (Az2R theta))).
Proof.
  rewrite Ax2R_data, Ay2R_data, Az2R_data.
  pose proof (sin2_cos2' theta).
  repeat split; try reflexivity; entries; try (each_entry nra); nra.
Qed.

(** X3: rotations about one axis compose by adding their angles: the matrix
    product of the matrices for angles a and b is the matrix for a + b. *)
Theorem axis_builders_compose (a b : R) :
  matmul3 (data (Ax2R a)) (data (Ax2R b)) = data (Ax2R (a + b)) /\
  matmul3 (data (Ay2R a)) (data (Ay2R b)) = data (Ay2R (a + b)) /\
  matmul3 (data (Az2R a)) (data (Az2R b)) = data (Az2R (a + b)).
Proof.
  rewrite !Ax2R_data, !Ay2R_data, !Az2R_data, cos_plus, sin_plus.
  split; [|split]; entries; each_entry ring.
Qed.

(** ** Euler angles of the rotations about one axis *)

Lemma clip_inside (x lo hi : R) : lo <= x <= hi -> clip x lo hi = x.
Proof.
  intros [H1 H2]. unfold clip.
  rewrite Rmax_left by exact H1. now apply Rmin_left.
Qed.

Lemma arcsin_inside (x : R) : -1 <= x <= 1 -> arcsin x = Some (asin x).
Proof.
  intros [H1 H2]. unfold arcsin.
  destruct (Rle_dec (-1) x); [|contradiction].
  destruct (Rle_dec x 1); [reflexivity|contradiction].
Qed.

Lemma divide_real (x y : R) :
  y <> 0 -> divide (Some x) (Some y) = Some (x / y).
Proof.
  intros H. unfold divide. destruct (Req_dec_T y 0); [contradiction|reflexivity].
Qed.

Lemma arctan2_0_pos (x : R) : 0 < x -> arctan2 0 x = 0.
Proof.
  intros H. unfold arctan2. destruct (Rlt_dec 0 x); [|contradiction].
  unfold Rdiv. rewrite Rmult_0_l. apply atan_0.
Qed.

(** The Euler angles of a matrix whose entry R[0,2] is 0. *)
Lemma euler_of_matrix_r02_zero (r00 r01 r10 r11 r12 r20 r21 r22 : R) :
  euler_of_matrix [r00; r01; 0; r10; r11; r12; r20; r21; r22]
  = [Some (arctan2 r12 r22); Some 0; Some (arctan2 r01 r00)].
Proof.
  unfold euler_of_matrix. cbn [Nat.mul Nat.add nth].
  destruct (Req_dec_T 0 1); [lra|].
  destruct (Req_dec_T 0 (-1)); [lra|].
  rewrite clip_inside, arcsin_inside by lra.
  cbn [lift1 option_map].
  rewrite asin_0, Ropp_0, cos_0.
  rewrite !divide_real by lra. cbn [lift2].
  unfold Rdiv. now rewrite Rinv_1, !Rmult_1_r.
Qed.

(** The Euler angles of a matrix whose entry R[0,2] lies strictly between
    -1 and 1. *)
Lemma euler_of_matrix_normal (r00 r01 r02 r10 r11 r12 r20 r21 r22 : R) :
  -1 < r02 < 1 ->
  euler_of_matrix [r00; r01; r02; r10; r11; r12; r20; r21; r22]
  = [Some (arctan2 (r12 / cos (asin r02)) (r22 / cos (asin r02)));
     Some (- asin r02);
     Some (arctan2 (r01 / cos (asin r02)) (r00 / cos (asin r02)))].
Proof.
  intros H.
  unfold euler_of_matrix. cbn [Nat.mul Nat.add nth].
  destruct (Req_dec_T r02 1); [lra|].
  destruct (Req_dec_T r02 (-1)); [lra|].
  rewrite clip_inside, arcsin_inside by lra.
  cbn [lift1 option_map]. rewrite cos_neg.
  assert (Hc : 0 < cos (asin r02)).
  { apply cos_gt_0; apply asin_bound_lt in H; lra. }
  rewrite !divide_real by lra. reflexivity.
Qed.

(** X4: R2E applied to the rotation Ax2R builds about x by an angle in
    [-pi, pi) returns that angle negated, and no rotation about y and z;
    on Az2R it returns the angle negated as the z angle. *)
Theorem R2E_of_Ax2R_Az2R (theta : R) :
  - PI <= theta < PI ->
  R2E (Ax2R theta) = Ok (mk_ndarray [3%nat] [Some (- theta); Some 0; Some 0]) /\
  R2E (Az2R theta) = Ok (mk_ndarray [3%nat] [Some 0; Some 0; Some (- theta)]).
Proof.
  intros H.
  split.
  - change (Ax2R theta)
      with (mk_ndarray ([] ++ [3; 3]%nat)
              [1; 0; 0; 0; cos theta; - sin theta; 0; sin theta; cos theta]).
    rewrite R2E_rows.
    cbn [app prod fold_right Nat.mul chunks firstn skipn flat_map].
    rewrite euler_of_matrix_r02_zero, app_nil_r.
    rewrite arctan2_neg_sin_cos by exact H.
    rewrite arctan2_0_pos by lra. reflexivity.
  - change (Az2R theta)
      with (mk_ndarray ([] ++ [3; 3]%nat)
              [cos theta; - sin theta; 0; sin theta; cos theta; 0; 0; 0; 1]).
    rewrite R2E_rows.
    cbn [app prod fold_right Nat.mul chunks firstn skipn flat_map].
    rewrite euler_of_matrix_r02_zero, app_nil_r.
    rewrite arctan2_neg_sin_cos by exact H.
    rewrite arctan2_0_pos by lra. reflexivity.
Qed.

Lemma R2E_of_Ax2R_Az2R_witness :
  - PI <= 1 < PI /\
  R2E (Ax2R 1) = Ok (mk_ndarray [3%nat] [Some (- 1); Some 0; Some 0]) /\
  R2E (Az2R 1) = Ok (mk_ndarray [3%nat] [Some 0; Some 0; Some (- 1)]).
Proof.
  assert (H : - PI <= 1 < PI) by (pose proof PI_gt_3'; lra).
  split; [exact H|]. exact (R2E_of_Ax2R_Az2R H).
Defined.

Lemma arctan2_0_neg (x : R) : x < 0 -> arctan2 0 x = PI.
Proof.
  intros H. unfold arctan2.
  destruct (Rlt_dec 0 x); [lra|].
  destruct (Rlt_dec x 0); [|contradiction].
  destruct (Rle_dec 0 0); [|lra].
  unfold Rdiv. rewrite Rmult_0_l, atan_0. ring.
Qed.

Lemma asin_minus_1 : asin (-1) = - (PI / 2).
Proof.
  replace (-1) with (Ropp 1) by lra.
  now rewrite asin_opp, asin_1.
Qed.

Lemma sin_inside (t : R) : - (PI / 2) < t < PI / 2 -> -1 < sin t < 1.
Proof.
  intros H. pose proof (SIN_bound t) as [B1 B2].
  assert (E : asin (sin t) = t) by (apply asin_sin; lra).
  split.
  - destruct B1 as [B1|B1]; [exact B1|]. exfalso.
    rewrite <- B1, asin_minus_1 in E. lra.
  - destruct B2 as [B2|B2]; [exact B2|]. exfalso.
    rewrite B2, asin_1 in E. lra.
Qed.

(** X5: R2E applied to the rotation Ay2R builds about y by an angle between
    -pi/2 + 1/1000 and pi/2 - 1/1000 returns that angle negated as the y
    angle, and 0 as the x and z angles; at pi/2 and at -pi/2 the gimbal-lock
    branches give (0, -pi/2, 0) and (pi, pi/2, 0).  The angles nearer to
    pi/2 and -pi/2 are left out: there the rounding of the sine decides
    which branch the program takes. *)
Theorem R2E_of_Ay2R (theta : R) :
  (- (PI / 2) + 1 / 1000 <= theta <= PI / 2 - 1 / 1000 ->
   R2E (Ay2R theta)
   = Ok (mk_ndarray [3%nat] [Some 0; Some (- theta); Some 0])) /\
  R2E (Ay2R (PI / 2))
  = Ok (mk_ndarray [3%nat] [Some 0; Some (- (PI / 2)); Some 0]) /\
  R2E (Ay2R (- (PI / 2)))
  = Ok (mk_ndarray [3%nat] [Some PI; Some (PI / 2); Some 0]).
Proof.
  pose proof PI_RGT_0 as Hpi.
  assert (Rows : forall t,
            R2E (Ay2R t)
            = Ok (mk_ndarray [3%nat]
                    (euler_of_matrix
                       [cos t; 0; sin t; 0; 1; 0; - sin t; 0; cos t]))).
  { intros t.
    change (Ay2R t)
      with (mk_ndarray ([] ++ [3; 3]%nat)
              [cos t; 0; sin t; 0; 1; 0; - sin t; 0; cos t]).
    rewrite R2E_rows.
    cbn [app prod fold_right Nat.mul chunks firstn skipn flat_map].
    now rewrite app_nil_r. }
  split; [|split].
  - intros H. rewrite Rows. f_equal. f_equal.
    assert (Hin : - (PI / 2) < theta < PI / 2) by lra.
    rewrite euler_of_matrix_normal by (now apply sin_inside).
    rewrite asin_sin by lra.
    assert (Hc : 0 < cos theta) by (apply cos_gt_0; lra).
    replace (0 / cos theta) with 0 by (field; lra).
    replace (cos theta / cos theta) with 1 by (field; lra).
    now rewrite arctan2_0_pos by lra.
  - rewrite Rows. f_equal. f_equal.
    unfold euler_of_matrix. cbn [Nat.mul Nat.add nth].
    rewrite sin_PI2.
    destruct (Req_dec_T 1 1); [|lra].
    rewrite arctan2_0_pos by lra.
    repeat f_equal. field.
  - rewrite Rows. f_equal. f_equal.
    unfold euler_of_matrix. cbn [Nat.mul Nat.add nth].
    rewrite sin_neg, sin_PI2.
    destruct (Req_dec_T (- (1)) 1); [lra|].
    destruct (Req_dec_T (- (1)) (-1)); [|lra].
    now rewrite arctan2_0_neg by lra.
Qed.

Lemma R2E_of_Ay2R_witness :
  - (PI / 2) + 1 / 1000 <= 1 <= PI / 2 - 1 / 1000 /\
  R2E (Ay2R 1) = Ok (mk_ndarray [3%nat] [Some 0; Some (- 1); Some 0]).
Proof.
  assert (H : - (PI / 2) + 1 / 1000 <= 1 <= PI / 2 - 1 / 1000)
    by (pose proof PI_gt_3'; lra).
  split; [exact H|]. exact (proj1 (R2E_of_Ay2R 1) H).
Defined.

(** ** No special value *)

Lemma Forall_flat_map {A B : Type} (P : B -> Prop) (f : A -> list B)
    (l : list A) :
  (forall x, In x l -> Forall P (f x)) -> Forall P (flat_map f l).
Proof.
  induction l as [|x t IH]; intros H; simpl.
  - constructor.
  - apply Forall_app. split.
    + apply H. now left.
    + apply IH. intros y Hy. apply H. now right.
Qed.

Lemma euler_of_matrix_real (m : list R) :
  -1 <= nth 2 m 0 <= 1 ->
  Forall (fun x : num => x <> None) (euler_of_matrix m).
Proof.
  intros H. unfold euler_of_matrix. cbn [Nat.mul Nat.add].
  destruct (Req_dec_T (nth 2 m 0) 1);
    [repeat constructor; discriminate|].
  destruct (Req_dec_T (nth 2 m 0) (-1));
    [repeat constructor; discriminate|].
  rewrite clip_inside, arcsin_inside by lra.
  cbn [lift1 option_map].
  assert (Hc : 0 < cos (- asin (nth 2 m 0))).
  { rewrite cos_neg. apply cos_gt_0; apply asin_bound_lt; lra. }
  rewrite !divide_real by lra. cbn [lift2].
  repeat constructor; discriminate.
Qed.

(** X6: on a batch in which every matrix has its entry R[0,2] in [-1, 1], as
    every rotation matrix has, R2E returns real numbers only: no division
    by zero and no arcsine outside its domain occurs. *)
Theorem R2E_all_real (lead : list nat) (d : list R) :
  Forall (fun m => -1 <= nth 2 m 0 <= 1) (chunks 9 (prod lead) d) ->
  exists out,
    R2E (mk_ndarray (lead ++ [3; 3]%nat) d) = Ok out /\
    shape out = lead ++ [3%nat] /\
    all_real out.
Proof.
  intros H. eexists. split; [apply R2E_rows|]. split; [reflexivity|].
  unfold all_real. cbn [data].
  apply Forall_flat_map. intros m Hm.
  apply euler_of_matrix_real.
  rewrite Forall_forall in H. now apply H.
Qed.

Lemma R2E_all_real_witness :
  let d := [0; 0; 1; 0; 1; 0; -1; 0; 0] in
  Forall (fun m => -1 <= nth 2 m 0 <= 1) (chunks 9 (prod []) d) /\
  exists out,
    R2E (mk_ndarray [3; 3]%nat d) = Ok out /\
    shape out = [3%nat] /\
    all_real out.
Proof.
  intros d.
  assert (H : Forall (fun m => -1 <= nth 2 m 0 <= 1) (chunks 9 (prod []) d)).
  { repeat constructor; simpl; lra. }
  split; [exact H|]. exact (@R2E_all_real [] d H).
Defined.

Lemma clip_bounds (x lo hi : R) :
  Rmin lo hi <= clip x lo hi <= hi.
Proof.
  unfold clip. split.
  - apply Rmin_glb.
    + apply Rle_trans with lo; [apply Rmin_l | apply Rmax_r].
    + apply Rmin_r.
  - apply Rmin_r.
Qed.

(** X7: with a slack epsilon in [0, 2] (the default 0 among them) Q2E
    returns real numbers only, whatever the quaternions, unit or not; with
    a negative slack it does not: on (1, 0, 1, 0) the y angle is the
    arcsine of a number above 1. *)
Theorem Q2E_all_real (lead : list nat) (d : list R) :
  (forall epsilon, 0 <= epsilon <= 2 ->
     exists out,
       Q2E (mk_ndarray (lead ++ [4%nat]) d) epsilon = Ok out /\
       shape out = lead ++ [3%nat] /\
       all_real out) /\
  (forall epsilon, epsilon < 0 ->
     exists x z,
       Q2E (mk_ndarray [4%nat] [1; 0; 1; 0]) epsilon
       = Ok (mk_ndarray [3%nat] [Some x; None; Some z])).
Proof.
  split.
  - intros epsilon He.
    eexists. split; [apply Q2E_rows|]. split; [reflexivity|].
    unfold all_real. cbn [data].
    apply Forall_flat_map. intros q _.
    unfold euler_of_quaternion. cbv zeta.
    match goal with
    | |- context [arcsin (clip ?v ?lo ?hi)] =>
        pose proof (clip_bounds v lo hi) as [B1 B2];
        assert (B0 : -1 <= Rmin lo hi)
          by (apply Rmin_glb; lra);
        rewrite (arcsin_inside (x := clip v lo hi)) by lra
    end.
    repeat constructor; discriminate.
  - intros epsilon He.
    rewrite (Q2E_rows [] _).
    cbn [app prod fold_right Nat.mul chunks firstn skipn flat_map].
    unfold euler_of_quaternion. cbn [nth]. cbv zeta.
    rewrite app_nil_r.
    set (c := clip (2 * (0 * 0 + 1 * 1)) (-1 + epsilon) (1 - epsilon)).
    assert (C : 1 < c).
    { unfold c, clip. apply Rmin_glb_lt; [|lra].
      apply Rlt_le_trans with (2 * (0 * 0 + 1 * 1)); [lra | apply Rmax_l]. }
    unfold arcsin.
    destruct (Rle_dec (-1) c); [|lra].
    destruct (Rle_dec c 1); [lra|].
    eexists. eexists. reflexivity.
Qed.

Lemma Q2E_all_real_witness :
  0 <= 0 <= 2 /\
  exists out,
    Q2E (mk_ndarray ([2%nat] ++ [4%nat]) [1; 0; 0; 0; 3; 4; 5; 6]) 0 = Ok out /\
    shape out = [2; 3]%nat /\
    all_real out.
Proof.
  assert (H : 0 <= 0 <= 2) by lra.
  split; [exact H|].
  exact (proj1 (Q2E_all_real [2%nat] [1; 0; 0; 0; 3; 4; 5; 6]) 0 H).
Defined.

(** ** Euler angles of the quaternions of the rotations about one axis *)






(** ** Transforms from their parts *)

Lemma filled_length (r p : list R) : List.length (filled r p) = 16%nat.
Proof. reflexivity. Qed.

Lemma filled_homogeneous (r p : list R) : homogeneous (filled r p).
Proof. reflexivity. Qed.

Lemma filled_rotation (r p : list R) :
  List.length r = 9%nat -> rotation_of (filled r p) = r.
Proof.
  intros H.
  do 9 (destruct r as [|? r]; [discriminate H|]).
  destruct r; [reflexivity | discriminate H].
Qed.

Lemma filled_position (r p : list R) :
  List.length p = 3%nat -> position_of (filled r p) = p.
Proof.
  intros H.
  do 3 (destruct p as [|? p]; [discriminate H|]).
  destruct p; [reflexivity | discriminate H].
Qed.

(** The transforms [Rp2T] builds from [n] rotations and [n] positions. *)
Lemma fill_all (n : nat) :
  forall Rs ps : list (list R),
    List.length Rs = n -> List.length ps = n ->
    map2 set_last_col ps
      (map2 set_top_left Rs (map (fun _ => eye_T) (repeat (repeat 0 16) n)))
    = map2 filled Rs ps.
Proof.
  induction n as [|n IH]; intros [|r Rs] [|p ps] HR Hp;
    try discriminate; try reflexivity.
  cbn [repeat map map2]. f_equal. apply IH; simpl in *; lia.
Qed.

Lemma map2_length {A B C : Type} (f : A -> B -> C) (l : list A) (l' : list B) :
  List.length l = List.length l' ->
  List.length (map2 f l l') = List.length l.
Proof.
  revert l'; induction l as [|x t IH]; intros [|y t'] H;
    try discriminate; simpl; auto.
Qed.

Lemma map2_filled_parts (Rs ps : list (list R)) :
  List.length Rs = List.length ps ->
  Forall (fun r => List.length r = 9%nat) Rs ->
  Forall (fun p => List.length p = 3%nat) ps ->
  flat_map rotation_of (map2 filled Rs ps) = concat Rs /\
  flat_map position_of (map2 filled Rs ps) = concat ps /\
  Forall homogeneous (map2 filled Rs ps) /\
  List.length (concat (map2 filled Rs ps)) = (List.length Rs * 16)%nat /\
  chunks 16 (List.length Rs) (concat (map2 filled Rs ps)) = map2 filled Rs ps.
Proof.
  revert ps; induction Rs as [|r Rs IH]; intros [|p ps] H HR Hp;
    try discriminate.
  - repeat split; constructor.
  - inversion HR as [|? ? Hr HR']; inversion Hp as [|? ? Hp1 Hp']; subst.
    destruct (IH ps) as (E1 & E2 & E3 & E4 & E5); auto.
    cbn [map2 flat_map concat List.length].
    rewrite filled_rotation, filled_position, E1, E2 by assumption.
    repeat split; auto.
    + constructor; [apply filled_homogeneous | exact E3].
    + rewrite length_app, E4, filled_length. lia.
    + rewrite chunks_app by apply filled_length. now rewrite E5.
Qed.

Lemma chunks_all_length {A : Type} (k n : nat) (l : list A) :
  List.length l = (n * k)%nat ->
  Forall (fun c => List.length c = k) (chunks k n l).
Proof.
  intros H. apply Forall_forall. intros c Hc.
  eapply chunks_In_length; eauto.
Qed.

Lemma broadcast_items_length {A : Type} (n : nat) (rows rows' : list A) :
  broadcast_items n rows = Some rows' -> List.length rows' = n.
Proof.
  unfold broadcast_items.
  destruct (List.length rows =? n)%nat eqn:E.
  - intros [= <-]. now apply Nat.eqb_eq.
  - destruct rows as [|r [|r' t]]; try discriminate.
    intros [= <-]. apply repeat_length.
Qed.

Lemma broadcast_items_all {A : Type} (P : A -> Prop) (n : nat)
    (rows rows' : list A) :
  broadcast_items n rows = Some rows' -> Forall P rows -> Forall P rows'.
Proof.
  unfold broadcast_items.
  destruct (List.length rows =? n)%nat.
  - now intros [= <-].
  - destruct rows as [|r [|r' t]]; try discriminate.
    intros [= <-] H. inversion H; subst.
    apply Forall_forall. intros x Hx. now apply repeat_spec in Hx; subst.
Qed.

(** [Rp2T] on well-formed parts, in terms of the items it assigns. *)
Lemma Rp2T_run (leadR leadp ish : list nat) (dR dp : list R)
    (Rs ps : list (list R)) :
  List.length dR = (prod leadR * 9)%nat ->
  List.length dp = (prod leadp * 3)%nat ->
  (if (2 <? List.length (leadR ++ [3; 3]%nat))%nat
   then removelast (removelast (leadR ++ [3; 3]%nat))
   else removelast (leadp ++ [3%nat])) = ish ->
  broadcast_items (prod ish) (chunks 9 (prod leadR) dR) = Some Rs ->
  broadcast_items (prod ish) (chunks 3 (prod leadp) dp) = Some ps ->
  Rp2T (mk_ndarray (leadR ++ [3; 3]%nat) dR) (mk_ndarray (leadp ++ [3%nat]) dp)
  = Ok (mk_ndarray (ish ++ [4; 4]%nat) (concat (map2 filled Rs ps))) /\
  T2Rp (mk_ndarray (ish ++ [4; 4]%nat) (concat (map2 filled Rs ps)))
  = Ok (mk_ndarray (ish ++ [3; 3]%nat) (concat Rs),
        mk_ndarray (ish ++ [3%nat]) (concat ps)) /\
  Forall homogeneous (chunks 16 (prod ish) (concat (map2 filled Rs ps))).
Proof.
  intros HdR Hdp Hish HRs Hps.
  pose proof (broadcast_items_length _ _ HRs) as LR.
  pose proof (broadcast_items_length _ _ Hps) as Lp.
  pose proof (@broadcast_items_all _ (fun r => List.length r = 9%nat) _ _ _
                HRs (chunks_all_length 9 (prod leadR) dR HdR)) as AR.
  pose proof (@broadcast_items_all _ (fun r => List.length r = 3%nat) _ _ _
                Hps (chunks_all_length 3 (prod leadp) dp Hdp)) as Ap.
  destruct (@map2_filled_parts Rs ps) as (E1 & E2 & E3 & E4 & E5);
    [congruence | exact AR | exact Ap |].
  rewrite LR in E4, E5.
  split; [|split].
  - unfold Rp2T, reshape_items, size, ndim. cbn [shape data].
    rewrite Hish, !prod_app.
    change (prod [3; 3]%nat) with 9%nat. change (prod [3%nat]) with 3%nat.
    rewrite !Nat.Div0.mod_mul, !Nat.div_mul by lia. cbn [Nat.eqb].
    rewrite HRs, Hps. cbv zeta.
    now rewrite (@fill_all (prod ish) Rs ps LR Lp).
  - rewrite (@T2Rp_transform ish _ E4). rewrite E5, E1, E2. reflexivity.
  - rewrite E5. exact E3.
Qed.

Lemma input_shape_of (leadR leadp : list nat) :
  leadR = leadp \/ leadR <> [] \/ leadp = leadR ->
  (if (2 <? List.length (leadR ++ [3; 3]%nat))%nat
   then removelast (removelast (leadR ++ [3; 3]%nat))
   else removelast (leadp ++ [3%nat])) = leadR.
Proof.
  intros H.
  destruct (2 <? List.length (leadR ++ [3; 3]%nat))%nat eqn:E.
  - change [3; 3]%nat with ([3] ++ [3])%nat.
    now rewrite app_assoc, !removelast_last.
  - rewrite removelast_last.
    destruct H as [H|[H|H]]; auto.
    destruct leadR; [contradiction|].
    rewrite length_app in E. simpl in E.
    apply Nat.ltb_ge in E. lia.
Qed.

Lemma input_shape_single (leadp : list nat) :
  (if (2 <? List.length ([] ++ [3; 3]%nat))%nat
   then removelast (removelast ([] ++ [3; 3]%nat))
   else removelast (leadp ++ [3%nat])) = leadp.
Proof. cbn [app List.length Nat.ltb Nat.leb]. apply removelast_last. Qed.

Lemma broadcast_items_same {A : Type} (n : nat) (rows : list A) :
  List.length rows = n -> broadcast_items n rows = Some rows.
Proof.
  intros H. unfold broadcast_items.
  now apply Nat.eqb_eq in H as ->.
Qed.

Lemma broadcast_items_single {A : Type} (n : nat) (row : A) :
  broadcast_items n [row] = Some (repeat row n).
Proof.
  unfold broadcast_items. cbn [List.length].
  destruct (1 =? n)%nat eqn:E; [|reflexivity].
  apply Nat.eqb_eq in E. now subst.
Qed.

(** X9: Rp2T of rotations and positions with one leading shape returns
    transforms of that leading shape whose bottom rows are (0, 0, 0, 1),
    and T2Rp takes them apart into the same rotations and positions. *)
Theorem Rp2T_then_T2Rp (lead : list nat) (dR dp : list R) :
  List.length dR = (prod lead * 9)%nat ->
  List.length dp = (prod lead * 3)%nat ->
  exists T,
    Rp2T (mk_ndarray (lead ++ [3; 3]%nat) dR) (mk_ndarray (lead ++ [3%nat]) dp)
    = Ok T /\
    shape T = lead ++ [4; 4]%nat /\
    Forall homogeneous (chunks 16 (prod lead) (data T)) /\
    T2Rp T = Ok (mk_ndarray (lead ++ [3; 3]%nat) dR,
                 mk_ndarray (lead ++ [3%nat]) dp).
Proof.
  intros HR Hp.
  destruct (@Rp2T_run lead lead lead dR dp
              (chunks 9 (prod lead) dR) (chunks 3 (prod lead) dp) HR Hp)
    as (E1 & E2 & E3).
  - apply input_shape_of. now left.
  - apply broadcast_items_same, chunks_length.
  - apply broadcast_items_same, chunks_length.
  - eexists. split; [exact E1|]. split; [reflexivity|]. split; [exact E3|].
    rewrite E2. now rewrite !concat_chunks.
Qed.

Lemma Rp2T_then_T2Rp_witness :
  let dR := [0; -1; 0; 1; 0; 0; 0; 0; 1] in
  let dp := [5; 6; 7] in
  List.length dR = (prod [] * 9)%nat /\
  List.length dp = (prod [] * 3)%nat /\
  exists T,
    Rp2T (mk_ndarray [3; 3]%nat dR) (mk_ndarray [3%nat] dp) = Ok T /\
    T2Rp T = Ok (mk_ndarray [3; 3]%nat dR, mk_ndarray [3%nat] dp).
Proof.
  intros dR dp.
  assert (HR : List.length dR = (prod [] * 9)%nat) by reflexivity.
  assert (Hp : List.length dp = (prod [] * 3)%nat) by reflexivity.
  split; [exact HR|]. split; [exact Hp|].
  destruct (@Rp2T_then_T2Rp [] dR dp HR Hp) as (T & E & _ & _ & E').
  exists T. split; [exact E | exact E'].
Defined.

(** X10: p2T of a batch of positions of any leading shape returns
    transforms of that leading shape with bottom rows (0, 0, 0, 1); T2p
    gives the positions back, and T2R gives the identity rotation for each
    of them. *)
Theorem p2T_parts (lead : list nat) (dp : list R) :
  List.length dp = (prod lead * 3)%nat ->
  exists T,
    p2T (mk_ndarray (lead ++ [3%nat]) dp) = Ok T /\
    shape T = lead ++ [4; 4]%nat /\
    Forall homogeneous (chunks 16 (prod lead) (data T)) /\
    T2p T = Ok (mk_ndarray (lead ++ [3%nat]) dp) /\
    T2R T = Ok (mk_ndarray (lead ++ [3; 3]%nat)
                  (concat (repeat (data eye_R) (prod lead)))).
Proof.
  intros Hp.
  destruct (@Rp2T_run [] lead lead (data eye_R) dp
              (repeat (data eye_R) (prod lead)) (chunks 3 (prod lead) dp)
              eq_refl Hp)
    as (E1 & E2 & E3).
  - apply input_shape_single.
  - apply (broadcast_items_single (prod lead) (data eye_R)).
  - apply broadcast_items_same, chunks_length.
  - eexists. split; [exact E1|]. split; [reflexivity|]. split; [exact E3|].
    unfold T2p, T2R. rewrite E2, concat_chunks by exact Hp. split; reflexivity.
Qed.

Lemma p2T_parts_witness :
  let dp := [1; 2; 3; 4; 5; 6] in
  List.length dp = (prod [2%nat] * 3)%nat /\
  exists T,
    p2T (mk_ndarray [2; 3]%nat dp) = Ok T /\
    shape T = [2; 4; 4]%nat /\
    T2p T = Ok (mk_ndarray [2; 3]%nat dp) /\
    T2R T = Ok (mk_ndarray [2; 3; 3]%nat
                  [1; 0; 0; 0; 1; 0; 0; 0; 1; 1; 0; 0; 0; 1; 0; 0; 0; 1]).
Proof.
  intros dp.
  assert (Hp : List.length dp = (prod [2%nat] * 3)%nat) by reflexivity.
  split; [exact Hp|].
  destruct (@p2T_parts [2%nat] dp Hp) as (T & E & S & _ & Ep & ER).
  exists T. split; [exact E|]. split; [exact S|]. split; [exact Ep | exact ER].
Defined.

(** X11: R2T of a batch of rotations of any leading shape returns transforms
    of that leading shape with bottom rows (0, 0, 0, 1); T2R gives the
    rotations back, and T2p gives the zero position for each of them. *)
Theorem R2T_parts (lead : list nat) (dR : list R) :
  List.length dR = (prod lead * 9)%nat ->
  exists T,
    R2T (mk_ndarray (lead ++ [3; 3]%nat) dR) = Ok T /\
    shape T = lead ++ [4; 4]%nat /\
    Forall homogeneous (chunks 16 (prod lead) (data T)) /\
    T2R T = Ok (mk_ndarray (lead ++ [3; 3]%nat) dR) /\
    T2p T = Ok (mk_ndarray (lead ++ [3%nat])
                  (concat (repeat (data zero_p) (prod lead)))).
Proof.
  intros HR.
  destruct (@Rp2T_run lead [] lead dR (data zero_p)
              (chunks 9 (prod lead) dR) (repeat (data zero_p) (prod lead))
              HR eq_refl)
    as (E1 & E2 & E3).
  - apply input_shape_of. right.
    destruct lead; [right; reflexivity | left; discriminate].
  - apply broadcast_items_same, chunks_length.
  - apply (broadcast_items_single (prod lead) (data zero_p)).
  - eexists. split; [exact E1|]. split; [reflexivity|]. split; [exact E3|].
    unfold T2p, T2R. rewrite E2, concat_chunks by exact HR. split; reflexivity.
Qed.

Lemma R2T_parts_witness :
  let dR := [0; -1; 0; 1; 0; 0; 0; 0; 1] in
  List.length dR = (prod [1%nat] * 9)%nat /\
  exists T,
    R2T (mk_ndarray [1; 3; 3]%nat dR) = Ok T /\
    shape T = [1; 4; 4]%nat /\
    T2R T = Ok (mk_ndarray [1; 3; 3]%nat dR) /\
    T2p T = Ok (mk_ndarray [1; 3]%nat [0; 0; 0]).
Proof.
  intros dR.
  assert (HR : List.length dR = (prod [1%nat] * 9)%nat) by reflexivity.
  split; [exact HR|].
  destruct (@R2T_parts [1%nat] dR HR) as (T & E & S & _ & ER & Ep).
  exists T. split; [exact E|]. split; [exact S|]. split; [exact ER | exact Ep].
Defined.

(** X12: Rp2T takes the number of transforms from the rotations as soon as
    they have more than two dimensions: given N rotations and K positions,
    with K different from N and from 1, it raises ValueError, also when
    N = 1. *)
Theorem Rp2T_count_mismatch (leadR leadp : list nat) (dR dp : list R) :
  leadR <> [] ->
  List.length dR = (prod leadR * 9)%nat ->
  List.length dp = (prod leadp * 3)%nat ->
  prod leadp <> prod leadR -> prod leadp <> 1%nat ->
  Rp2T (mk_ndarray (leadR ++ [3; 3]%nat) dR) (mk_ndarray (leadp ++ [3%nat]) dp)
  = Raise ValueError.
Proof.
  intros HR HdR Hdp HN H1.
  unfold Rp2T, reshape_items, size, ndim. cbn [shape data].
  rewrite (@input_shape_of leadR leadp) by (right; now left).
  rewrite !prod_app.
  change (prod [3; 3]%nat) with 9%nat. change (prod [3%nat]) with 3%nat.
  rewrite !Nat.Div0.mod_mul, !Nat.div_mul by lia. cbn [Nat.eqb].
  rewrite broadcast_items_same by apply chunks_length.
  pose proof (chunks_length 3 (prod leadp) dp) as L.
  unfold broadcast_items.
  destruct (List.length (chunks 3 (prod leadp) dp) =? prod leadR)%nat eqn:E.
  - apply Nat.eqb_eq in E. congruence.
  - destruct (chunks 3 (prod leadp) dp) as [|r [|r' t]]; try reflexivity.
    simpl in L. congruence.
Qed.

Lemma Rp2T_count_mismatch_witness :
  Rp2T (mk_ndarray [1; 3; 3]%nat [1; 0; 0; 0; 1; 0; 0; 0; 1])
       (mk_ndarray [2; 3]%nat [1; 2; 3; 4; 5; 6])
  = Raise ValueError.
Proof.
  apply (@Rp2T_count_mismatch [1%nat] [2%nat]
           [1; 0; 0; 0; 1; 0; 0; 0; 1] [1; 2; 3; 4; 5; 6]);
    try reflexivity; try discriminate.
Defined.

(** ** Euler angles of a product of rotations about the axes *)

(** X13: R2E recovers the angles of a product of rotations about the axes:
    on Ax2R(a) Ay2R(b) Az2R(c), with a and c in [-pi, pi) and b between
    -pi/2 + 1/1000 and pi/2 - 1/1000, it returns (-a, -b, -c).  The angles b
    nearer to pi/2 and -pi/2 are left out: there the rounding of the sine
    decides which branch the program takes. *)
Theorem R2E_of_axis_product (a b c : R) :
  - PI <= a < PI -> - (PI / 2) + 1 / 1000 <= b <= PI / 2 - 1 / 1000 ->
  - PI <= c < PI ->
  R2E (mk_ndarray [3; 3]%nat
         (matmul3 (matmul3 (data (Ax2R a)) (data (Ay2R b))) (data (Az2R c))))
  = Ok (mk_ndarray [3%nat] [Some (- a); Some (- b); Some (- c)]).
Proof.
  intros Ha Hb' Hc.
  assert (Hb : - (PI / 2) < b < PI / 2) by lra.
  assert (E : matmul3 (matmul3 (data (Ax2R a)) (data (Ay2R b))) (data (Az2R c))
              = [cos b * cos c; cos b * - sin c; sin b;
                 sin a * sin b * cos c + cos a * sin c;
                 cos a * cos c - sin a * sin b * sin c;
                 - sin a * cos b;
                 sin a * sin c - cos a * sin b * cos c;
                 cos a * sin b * sin c + sin a * cos c;
                 cos a * cos b]).
  { rewrite Ax2R_data, Ay2R_data, Az2R_data. entries. each_entry ring. }
  rewrite E.
  change [3; 3]%nat with ([] ++ [3; 3])%nat.
  rewrite R2E_rows.
  cbn [app prod fold_right Nat.mul chunks firstn skipn flat_map].
  rewrite app_nil_r. f_equal. f_equal.
  rewrite euler_of_matrix_normal by (now apply sin_inside).
  rewrite asin_sin by lra.
  assert (Hcb : 0 < cos b) by (apply cos_gt_0; lra).
  replace (- sin a * cos b / cos b) with (- sin a) by (field; lra).
  replace (cos a * cos b / cos b) with (cos a) by (field; lra).
  replace (cos b * - sin c / cos b) with (- sin c) by (field; lra).
  replace (cos b * cos c / cos b) with (cos c) by (field; lra).
  now rewrite !arctan2_neg_sin_cos by assumption.
Qed.

Lemma R2E_of_axis_product_witness :
  - PI <= 1 < PI /\ - (PI / 2) + 1 / 1000 <= 1 <= PI / 2 - 1 / 1000 /\
  - PI <= 2 < PI /\
  R2E (mk_ndarray [3; 3]%nat
         (matmul3 (matmul3 (data (Ax2R 1)) (data (Ay2R 1))) (data (Az2R 2))))
  = Ok (mk_ndarray [3%nat] [Some (- 1); Some (- 1); Some (- 2)]).
Proof.
  pose proof PI_gt_3' as Hpi.
  assert (Ha : - PI <= 1 < PI) by lra.
  assert (Hb : - (PI / 2) + 1 / 1000 <= 1 <= PI / 2 - 1 / 1000) by lra.
  assert (Hc : - PI <= 2 < PI) by lra.
  split; [exact Ha|]. split; [exact Hb|]. split; [exact Hc|].
  exact (R2E_of_axis_product Ha Hb Hc).
Defined.

End PureExtra.
